(** * codecraft-mcp: the text-location and mutation engine of server.js

    A shallow embedding of the file-editing core of [src/server.js]:
    [_resolveSandboxPath], [smartReplace], [_performSmartMatch] and
    [insertLines], together with the JavaScript runtime primitives they call
    ([String.prototype.includes], [replace], [split], [trim], [startsWith],
    [Array.prototype.splice], [join], and POSIX [path.resolve]).

    JavaScript strings are modelled as lists of characters ([list ascii]);
    the file system touched by [fs.readFile] / [fs.writeFile] is a finite map
    from absolute paths to the contents of regular files. JavaScript numbers
    that hold line numbers, offsets and indices are modelled as integers
    ([Z]); the two agree on the safe integers. *)

From Stdlib Require Import ZArith Ascii String DecimalString Sorted.
From stdpp Require Import gmap strings list.

Local Open Scope Z_scope.
Local Open Scope list_scope.

(** A JavaScript string: a finite sequence of characters. *)
Abbreviation str := (list ascii).

(** [js "abc"] is the character sequence of the literal. *)
Definition js (s : string) : str := list_ascii_of_string s.
Arguments js s%_string.

(** ** The JavaScript runtime primitives used by server.js *)

Module JS.

(** The line feed, ['\n']. *)
Definition LF : ascii := ascii_of_nat 10.

(** [s.startsWith(p)] *)
Fixpoint startsWith (s p : str) {struct p} : bool :=
  match p with
  | [] => true
  | c :: p' =>
      match s with
      | [] => false
      | d :: s' => if decide (c = d) then startsWith s' p' else false
      end
  end.

(** [s.indexOf(pat)]: the position of the leftmost occurrence, if any. *)
Fixpoint indexOf (s pat : str) : option nat :=
  if startsWith s pat then Some 0%nat
  else match s with
       | [] => None
       | _ :: s' => S <$> indexOf s' pat
       end.

(** [s.includes(pat)] *)
Definition includes (s pat : str) : bool :=
  match indexOf s pat with Some _ => true | None => false end.

(** GetSubstitution of ECMA-262 for a string pattern (no capture groups):
    in the replacement text [$$] is a dollar sign, [$&] the matched text,
    [$`] the text before the match and [$'] the text after it; with no
    captures every other use of [$] stands for itself. *)
Fixpoint GetSubstitution (matched before after replacement : str) : str :=
  match replacement with
  | [] => []
  | c :: r =>
      if decide (c = "$"%char) then
        match r with
        | [] => [c]
        | d :: r' =>
            if decide (d = "$"%char) then
              "$"%char :: GetSubstitution matched before after r'
            else if decide (d = "&"%char) then
              matched ++ GetSubstitution matched before after r'
            else if decide (d = "`"%char) then
              before ++ GetSubstitution matched before after r'
            else if decide (d = "'"%char) then
              after ++ GetSubstitution matched before after r'
            else c :: GetSubstitution matched before after r
        end
      else c :: GetSubstitution matched before after r
  end.

(** [s.replace(pat, replacement)] with a string pattern: only the leftmost
    occurrence is replaced; without an occurrence [s] is returned. *)
Definition replace (s pat replacement : str) : str :=
  match indexOf s pat with
  | None => s
  | Some pos =>
      let before := take pos s in
      let after := drop (pos + length pat) s in
      before ++ GetSubstitution pat before after replacement ++ after
  end.

(** [s.split(sep)] for a one-character separator, as an accumulator loop:
    [cur] is the piece being read. The result is never empty. *)
Fixpoint split_from (sep : ascii) (cur : str) (s : str) : list str :=
  match s with
  | [] => [cur]
  | c :: s' =>
      if decide (c = sep) then cur :: split_from sep [] s'
      else split_from sep (cur ++ [c]) s'
  end.

Definition split (sep : ascii) (s : str) : list str := split_from sep [] s.

(** [pieces.join(sep)] for a one-character separator. *)
Fixpoint join (sep : ascii) (pieces : list str) : str :=
  match pieces with
  | [] => []
  | [p] => p
  | p :: rest => p ++ sep :: join sep rest
  end.

(** White space and line terminators among the characters below 256:
    TAB, LF, VT, FF, CR, SPACE and NBSP. [trim] and the regular expression
    class [\s] use the same set. *)
Definition isWhiteSpace (c : ascii) : bool :=
  bool_decide (nat_of_ascii c ∈ [9; 10; 11; 12; 13; 32; 160]%nat).

(** [s.trimStart()] *)
Fixpoint trimStart (s : str) : str :=
  match s with
  | [] => []
  | c :: s' => if isWhiteSpace c then trimStart s' else s
  end.

(** [s.trimEnd()] *)
Definition trimEnd (s : str) : str := rev (trimStart (rev s)).

(** [s.trim()] *)
Definition trim (s : str) : str := trimEnd (trimStart s).

(** Group 1 of [s.match] on the pattern: start of string, then a greedy run
    of white space. It is the longest run of white space that starts [s];
    the pattern matches every string, so the match object always exists. *)
Fixpoint leadingWhitespace (s : str) : str :=
  match s with
  | [] => []
  | c :: s' => if isWhiteSpace c then c :: leadingWhitespace s' else []
  end.

(** [arr.splice(start, deleteCount, ...items)], returning the array after
    the call. A negative [start] counts from the end; [start] and
    [deleteCount] are clamped to the array. *)
Definition splice {A} (arr : list A) (start deleteCount : Z) (items : list A)
  : list A :=
  let len := Z.of_nat (length arr) in
  let actualStart :=
    if start <? 0 then Z.max (len + start) 0 else Z.min start len in
  let actualDeleteCount := Z.min (Z.max deleteCount 0) (len - actualStart) in
  take (Z.to_nat actualStart) arr ++ items
    ++ drop (Z.to_nat (actualStart + actualDeleteCount)) arr.

(** A string used as a condition: only the empty string is falsy. *)
Definition truthy (s : str) : bool :=
  match s with [] => false | _ :: _ => true end.

End JS.

(** ** POSIX path.resolve *)

Module Path.

Definition SEP : ascii := "/"%char.

Definition isAbsolute (p : str) : bool :=
  match p with c :: _ => bool_decide (c = SEP) | [] => false end.

(** normalizeString of Node's path module with allowAboveRoot = false, on
    the segments of the path: empty segments and [.] are dropped, [..]
    removes the segment before it (and is dropped at the root). [acc] holds
    the segments kept so far, last one first. *)
Fixpoint normalizeSegments (acc : list str) (segs : list str) : list str :=
  match segs with
  | [] => rev acc
  | seg :: rest =>
      if decide (seg = []) then normalizeSegments acc rest
      else if decide (seg = js ".") then normalizeSegments acc rest
      else if decide (seg = js "..") then normalizeSegments (tail acc) rest
      else normalizeSegments (seg :: acc) rest
  end.

(** [path.resolve(base, p)] for an absolute [base]: the arguments are taken
    from the right until an absolute path is built, empty arguments are
    skipped, and the result is normalized. *)
Definition resolve (base p : str) : str :=
  let joined :=
    if isAbsolute p then p
    else match p with [] => base | _ => base ++ SEP :: p end in
  SEP :: JS.join SEP (normalizeSegments [] (JS.split SEP joined)).

End Path.

(** ** Errors, the file system and the effects of the server's operations *)

(** The errors thrown by the modelled operations, one constructor per
    message. [SmartReplaceFailed] is the re-throw of [smartReplace]'s
    catch block, which prefixes the message of its cause. *)
Inductive error : Type :=
  | PathTraversalBlocked (userPath : str)
  | ExactMatchNotFound
  | NoSmartMatch
  | InvalidMatchMode (match_mode : str)
  | PatternNotFound (pattern : str)
  | ENOENT (path : str)
  | SmartReplaceFailed (cause : error).

(** The files of the machine: absolute path to content. Directories are not
    modelled, so [fs.mkdir] has no effect on this state. *)
Abbreviation Files := (gmap str str).

(** A computation that may throw and that reads and writes files. *)
Definition io (A : Type) : Type := Files -> (error + A) * Files.

Declare Scope io_scope.
Delimit Scope io_scope with io.

Definition ret {A} (a : A) : io A := fun fs => (inr a, fs).

Definition throw {A} (e : error) : io A := fun fs => (inl e, fs).

Definition bind {A B} (m : io A) (k : A -> io B) : io B :=
  fun fs =>
    match m fs with
    | (inl e, fs') => (inl e, fs')
    | (inr a, fs') => k a fs'
    end.

(** [try { body } catch (error) { handler(error) }] *)
Definition try_catch {A} (body : io A) (handler : error -> io A) : io A :=
  fun fs =>
    match body fs with
    | (inl e, fs') => handler e fs'
    | (inr a, fs') => (inr a, fs')
    end.

(** A synchronous call that either throws or returns. *)
Definition lift {A} (r : error + A) : io A :=
  match r with inl e => throw e | inr a => ret a end.

Notation "x <- m ;; k" := (bind m (fun x => k))
  (at level 90, m at level 80, right associativity) : io_scope.
Notation "m ;;; k" := (bind m (fun _ => k))
  (at level 90, right associativity) : io_scope.
Local Open Scope io_scope.

(** [await fs.readFile(path, 'utf8')]: a missing file throws ENOENT. *)
Definition readFile (path : str) : io str :=
  fun fs =>
    match fs !! path with
    | Some content => (inr content, fs)
    | None => (inl (ENOENT path), fs)
    end.

(** [await fs.writeFile(path, content, 'utf-8')], for a path whose directory
    exists and that is not itself a directory: [smartReplace] and
    [insertLines] write to a file they have just read, or after [fs.mkdir]
    of its directory. *)
Definition writeFile (path content : str) : io unit :=
  fun fs => (inr tt, <[path := content]> fs).

(** ** server.js *)

Section Server.

(** The sandbox root, [path.resolve(process.env.PROJECT_DIR || process.cwd())]:
    fixed when the process starts. *)
Variable SANDBOX_DIR : str.

(** [_resolveSandboxPath(userPath)] *)
Definition _resolveSandboxPath (userPath : str) : error + str :=
  let resolvedPath := Path.resolve SANDBOX_DIR userPath in
  if negb (JS.startsWith resolvedPath SANDBOX_DIR) then
    inl (PathTraversalBlocked userPath)
  else inr resolvedPath.

(** [oldCode.trim().split('\n').map(l => l.trim())] *)
Definition oldLinesOf (oldCode : str) : list str :=
  JS.trim <$> JS.split JS.LF (JS.trim oldCode).

(** The inner loop of [_performSmartMatch]: does the window of [lines] that
    starts at [i] equal [oldLines] line by line, after trimming? A line
    past the end of [lines] is [undefined] and differs from every string. *)
Definition windowMatches (lines oldLines : list str) (i : nat) : bool :=
  forallb
    (fun j =>
       match lines !! (i + j)%nat, oldLines !! j with
       | Some line, Some old => bool_decide (JS.trim line = old)
       | _, _ => false
       end)
    (seq 0 (length oldLines)).

(** The outer loop: the first [i] with [0 <= i <= lines.length -
    oldLines.length] whose window matches. *)
Definition findWindow (lines oldLines : list str) : option nat :=
  find (windowMatches lines oldLines)
       (seq 0 (S (length lines) - length oldLines)).

(** The replacement lines of the fuzzy phase: the first line of [newCode]
    as it is, every later line trimmed and indented unless it is blank. *)
Definition reindentedNewLines (indent newCode : str) : list str :=
  imap
    (fun idx line =>
       if decide (idx = 0%nat) then line
       else if JS.truthy (JS.trim line) then indent ++ JS.trim line
       else line)
    (JS.split JS.LF newCode).

(** [_performSmartMatch(content, oldCode, newCode)]; [None] is [null].
    The matched index [i] is below [lines.length], so [lines[i]] exists. *)
Definition _performSmartMatch (content oldCode newCode : str) : option str :=
  if JS.includes content oldCode then
    Some (JS.replace content oldCode newCode)
  else
    let lines := JS.split JS.LF content in
    let oldLines := oldLinesOf oldCode in
    match findWindow lines oldLines with
    | Some i =>
        let indent := default [] (JS.leadingWhitespace <$> lines !! i) in
        let newLines := reindentedNewLines indent newCode in
        Some (JS.join JS.LF
                (JS.splice lines (Z.of_nat i) (Z.of_nat (length oldLines))
                           newLines))
    | None => None
    end.

(** The object returned by [smartReplace]. *)
Record SmartReplaceResult : Type := {
  sr_success : bool;
  sr_file_path : str;
  sr_match_mode : str
}.

(** [smartReplace({ file_path, old_code, new_code, match_mode = 'smart' })].
    The [typeof newContent !== 'string'] guard is left out: at that point
    [newContent] is the result of [replace] or a non-null result of
    [_performSmartMatch], a string in both cases. *)
Definition smartReplace (file_path old_code new_code : str)
    (match_mode : option str) : io SmartReplaceResult :=
  let match_mode := default (js "smart") match_mode in
  try_catch
    (safePath <- lift (_resolveSandboxPath file_path) ;;
     content <- readFile safePath ;;
     newContent <-
       (if decide (match_mode = js "exact") then
          if negb (JS.includes content old_code) then throw ExactMatchNotFound
          else ret (JS.replace content old_code new_code)
        else if bool_decide (match_mode = js "smart")
                || bool_decide (match_mode = js "fuzzy") then
          match _performSmartMatch content old_code new_code with
          | None => throw NoSmartMatch
          | Some newContent => ret newContent
          end
        else throw (InvalidMatchMode match_mode)) ;;
     writeFile safePath newContent ;;;
     ret {| sr_success := true;
            sr_file_path := file_path;
            sr_match_mode := match_mode |})
    (fun e => throw (SmartReplaceFailed e)).

(** The [position] argument of [insertLines]: an object whose fields are
    all optional ([None] is [undefined]). *)
Record Position : Type := {
  line_number : option Z;
  insert_mode : option str;
  after_pattern : option str;
  before_pattern : option str;
  relative_to : option (str * Z)   (* { pattern, offset } *)
}.

(** An optional string used as a condition. *)
Definition optTruthy (o : option str) : bool :=
  match o with Some s => JS.truthy s | None => false end.

(** The loop of the [after_pattern] / [before_pattern] branch, from line
    [i] on with [occurrenceCount] matches seen so far: the index and the
    text of the line at which the count reaches [match_occurrence]. *)
Fixpoint findOccurrence (pattern : str) (match_occurrence : Z)
    (lines : list str) (i : nat) (occurrenceCount : Z) : option (nat * str) :=
  match lines with
  | [] => None
  | line :: rest =>
      if JS.includes line pattern then
        let occurrenceCount := occurrenceCount + 1 in
        if occurrenceCount =? match_occurrence then Some (i, line)
        else findOccurrence pattern match_occurrence rest (S i) occurrenceCount
      else findOccurrence pattern match_occurrence rest (S i) occurrenceCount
  end.

(** The loop of the [relative_to] branch, from line [i] on: the index and
    the text of the first line that includes [pattern]. *)
Fixpoint findFirst (pattern : str) (lines : list str) (i : nat)
  : option (nat * str) :=
  match lines with
  | [] => None
  | line :: rest =>
      if JS.includes line pattern then Some (i, line)
      else findFirst pattern rest (S i)
  end.

(** "Determine insertion position": the values of [insertIndex] and
    [matchedLine] after the if / else-if chain, or the error it throws. *)
Definition resolvePosition (lines : list str) (position : Position)
    (match_occurrence : Z) : error + (Z * str) :=
  match line_number position with
  | Some n =>
      inr (if bool_decide (insert_mode position = Some (js "before"))
           then n - 1 else n,
           [])
  | None =>
      if optTruthy (after_pattern position)
         || optTruthy (before_pattern position) then
        let pattern :=
          if optTruthy (after_pattern position)
          then default [] (after_pattern position)
          else default [] (before_pattern position) in
        let isAfter := optTruthy (after_pattern position) in
        match findOccurrence pattern match_occurrence lines 0 0 with
        | Some (i, line) =>
            inr (if isAfter then Z.of_nat i + 1 else Z.of_nat i, line)
        | None => inl (PatternNotFound pattern)
        end
      else
        match relative_to position with
        | Some (pattern, offset) =>
            match findFirst pattern lines 0 with
            | Some (i, line) =>
                inr (Z.of_nat i + offset + (if offset >=? 0 then 1 else 0),
                     line)
            | None => inl (PatternNotFound pattern)
            end
        | None => inr (-1, [])
        end
  end.

(** "Apply indentation": [processedContent]. *)
Definition applyIndentation (content : str) (preserve_indentation : bool)
    (matchedLine : str) : str :=
  if preserve_indentation && JS.truthy matchedLine then
    let indent := JS.leadingWhitespace matchedLine in
    JS.join JS.LF
      (imap
         (fun i line =>
            if bool_decide (i = 0%nat) || negb (JS.truthy (JS.trim line))
            then line else indent ++ line)
         (JS.split JS.LF content))
  else content.

(** The object returned by [insertLines]. *)
Record InsertLinesResult : Type := {
  il_success : bool;
  il_file_path : str;
  inserted_at_line : Z;
  lines_inserted : nat
}.

(** [insertLines({ file_path, content, position, match_occurrence = 1,
    create_if_missing = false, preserve_indentation = true })], the three
    defaults already applied by the caller of this definition. *)
Definition insertLines (file_path content : str) (position : Position)
    (match_occurrence : Z) (create_if_missing preserve_indentation : bool)
  : io InsertLinesResult :=
  safePath <- lift (_resolveSandboxPath file_path) ;;
  fileContent <-
    try_catch (readFile safePath)
      (fun e =>
         if create_if_missing then
           match e with ENOENT _ => ret [] | _ => throw e end
         else throw e) ;;
  let lines := JS.split JS.LF fileContent in
  resolved <- lift (resolvePosition lines position match_occurrence) ;;
  let '(insertIndex, matchedLine) := resolved in
  let processedContent :=
    applyIndentation content preserve_indentation matchedLine in
  let lines :=
    JS.splice lines insertIndex 0 (JS.split JS.LF processedContent) in
  writeFile safePath (JS.join JS.LF lines) ;;;
  ret {| il_success := true;
         il_file_path := file_path;
         inserted_at_line := insertIndex + 1;
         lines_inserted := length (JS.split JS.LF processedContent) |}.

End Server.

(** ** More of the runtime: arrays, numbers, bytes and paths *)

Module JSExtra.

(** [arr.slice(start, end)]: negative arguments count from the end and both
    are clamped to the array. *)
Definition slice {A} (arr : list A) (start end_ : Z) : list A :=
  let len := Z.of_nat (length arr) in
  let k := if start <? 0 then Z.max (len + start) 0 else Z.min start len in
  let final := if end_ <? 0 then Z.max (len + end_) 0 else Z.min end_ len in
  take (Z.to_nat (Z.max (final - k) 0)) (drop (Z.to_nat k) arr).

(** [Buffer.byteLength(s)]: the length of the UTF-8 encoding; a character
    below 128 takes one byte, the others below 256 take two. *)
Definition byteLength (s : str) : nat :=
  foldr (fun c n => ((if (nat_of_ascii c <? 128)%nat then 1 else 2) + n)%nat)
        0%nat s.

(** [String(n)] for a natural number: its decimal digits. *)
Definition numberToString (n : nat) : str :=
  js (DecimalString.NilEmpty.string_of_uint (Nat.to_uint n)).

(** [s.split(/\s+/)[0]]: the characters of [s] before its first white
    space. *)
Fixpoint firstWord (s : str) : str :=
  match s with
  | [] => []
  | c :: s' => if JS.isWhiteSpace c then [] else c :: firstWord s'
  end.

(** The characters that the search operations escape before they build a
    regular expression from a literal: [. * + ? ^ $ { } ( ) | [ ] \]. *)
Definition isRegExpSpecial (c : ascii) : bool :=
  bool_decide (c ∈ js ".*+?^${}()|[]\").

(** [s.replace(/[.*+?^${}()|[\]\\]/g, '\\$&')]: a backslash is put in front
    of every special character. *)
Definition escapeRegExp (s : str) : str :=
  flat_map (fun c => if isRegExpSpecial c then ["\"%char; c] else [c]) s.

End JSExtra.

Module PathExtra.

(** POSIX [path.basename(p)]: trailing separators are ignored and the part
    after the last remaining separator is returned; the result is empty when
    [p] has no other character than separators. *)
Definition basename (p : str) : str :=
  default [] (last (filter (fun seg => seg <> []) (JS.split Path.SEP p))).

(** POSIX [path.join(base, p)] for an absolute [base]: the non-empty
    arguments are joined with a separator and the result is normalized; a
    separator at the end is kept. *)
Definition join (base p : str) : str :=
  let joined := match p with [] => base | _ => base ++ Path.SEP :: p end in
  let segs := Path.normalizeSegments [] (JS.split Path.SEP joined) in
  let trailingSeparator :=
    match last joined with
    | Some c => bool_decide (c = Path.SEP)
    | None => false
    end in
  Path.SEP :: JS.join Path.SEP segs
    ++ (if trailingSeparator && bool_decide (segs <> []) then [Path.SEP]
        else []).

End PathExtra.

(** ** Errors and effects of the other operations *)

(** The errors of the operations below: those of the operations above, and
    one constructor for each further message. *)
Inductive toolError : Type :=
  | Thrown (e : error)
  | InvalidRange (start_line end_line : Z) (lineCount : nat)
  | LineOutOfRange (line_number : Z) (lineCount : nat)
  | InvalidRegExp (source flags : str)
  | CommandNotAllowed (commandName : str).

(** A computation of the operations below. *)
Definition tool (A : Type) : Type := Files -> (toolError + A) * Files.

Declare Scope tool_scope.
Delimit Scope tool_scope with tool.

Definition tool_ret {A} (a : A) : tool A := fun fs => (inr a, fs).

Definition tool_throw {A} (e : toolError) : tool A := fun fs => (inl e, fs).

Definition tool_bind {A B} (m : tool A) (k : A -> tool B) : tool B :=
  fun fs =>
    match m fs with
    | (inl e, fs') => (inl e, fs')
    | (inr a, fs') => k a fs'
    end.

(** A computation of the kind above, run as one of this kind. *)
Definition run {A} (m : io A) : tool A :=
  fun fs =>
    match m fs with
    | (inl e, fs') => (inl (Thrown e), fs')
    | (inr a, fs') => (inr a, fs')
    end.

Notation "x <- m ;; k" := (tool_bind m (fun x => k))
  (at level 90, m at level 80, right associativity) : tool_scope.
Notation "m ;;; k" := (tool_bind m (fun _ => k))
  (at level 90, right associativity) : tool_scope.

(** [await fs.unlink(path)] for a path that holds a regular file or
    nothing: the file is removed; a missing file throws ENOENT. A directory
    at the path is outside this state. *)
Definition unlink (path : str) : io unit :=
  fun fs =>
    match fs !! path with
    | Some _ => (inr tt, delete path fs)
    | None => (inl (ENOENT path), fs)
    end.

(** [await fs.rename(src, dst)] for paths that hold regular files or
    nothing, the directory of [dst] existing: the content moves to [dst],
    replacing the file that was there; a missing source throws ENOENT. A
    directory at either path is outside this state. *)
Definition rename (src dst : str) : io unit :=
  fun fs =>
    match fs !! src with
    | Some content => (inr tt, <[dst := content]> (delete src fs))
    | None => (inl (ENOENT src), fs)
    end.

(** ** server.js, the other operations *)

(** [ALLOWED_COMMANDS] *)
Definition ALLOWED_COMMANDS : list str :=
  [js "npm"; js "yarn"; js "pnpm"; js "node"; js "python"; js "pip";
   js "java"; js "javac"; js "mvn"; js "gradle";
   js "go"; js "cargo"; js "rustc"; js "gcc"; js "g++"; js "make";
   js "cmake"; js "git"; js "docker";
   js "ls"; js "dir"; js "pwd"; js "cat"; js "type"; js "echo"; js "test";
   js "jest"; js "mocha"; js "pytest";
   js "eslint"; js "prettier"; js "tsc"; js "webpack"; js "vite";
   js "rollup"; js "parcel"].

Section Tools.

(** The sandbox root and the shell mode, fixed when the process starts. *)
Variable SANDBOX_DIR : str.
Variable SHELL_MODE : str.

(** [new RegExp(source, flags)], as the function that [test] computes on a
    line when [lastIndex] is 0; [None] when the constructor throws. *)
Variable RegExp : str -> str -> option (str -> bool).

Local Open Scope tool_scope.

(** [_validateShellCommand(command)] *)
Definition _validateShellCommand (command : str) : toolError + bool :=
  if bool_decide (SHELL_MODE = js "unsafe") then inr true
  else
    let baseCommand := JSExtra.firstWord (JS.trim command) in
    let commandName := PathExtra.basename baseCommand in
    if negb (bool_decide (commandName ∈ ALLOWED_COMMANDS)) then
      inl (CommandNotAllowed commandName)
    else inr true.

(** The object returned by [createOrOverwriteFile]. *)
Record CreateResult : Type := {
  cr_success : bool;
  cr_file_path : str;
  bytes_written : nat
}.

(** [createOrOverwriteFile({ file_path, content })] *)
Definition createOrOverwriteFile (file_path content : str) : io CreateResult :=
  (safePath <- lift (_resolveSandboxPath SANDBOX_DIR file_path) ;;
   writeFile safePath content ;;;
   ret {| cr_success := true;
          cr_file_path := file_path;
          bytes_written := JSExtra.byteLength content |})%io.

(** An element of [match.context]. *)
Record ContextLine : Type := {
  cl_line_number : Z;
  cl_content : str;
  is_match : bool
}.

(** An element of [matches]; [sm_context] is [None] when the object has no
    [context] field. *)
Record SearchMatch : Type := {
  sm_line_number : Z;
  sm_content : str;
  sm_context : option (list ContextLine)
}.

(** [searchRegex]: the pattern as it is when [use_regex] is set, the
    escaped pattern otherwise; flags [g] or [gi]. *)
Definition searchRegexOf (search_text : str) (case_sensitive use_regex : bool)
  : toolError + (str -> bool) :=
  let source :=
    if use_regex then search_text else JSExtra.escapeRegExp search_text in
  let flags := if case_sensitive then js "g" else js "gi" in
  match RegExp source flags with
  | Some test => inr test
  | None => inl (InvalidRegExp source flags)
  end.

(** The [context] loop of [searchInFile]: the lines from [start] to [end]
    inclusive. The two bounds lie inside [lines]. *)
Definition contextLoop (lines : list str) (index : nat) (context_lines : Z)
  : list ContextLine :=
  let start := Z.max 0 (Z.of_nat index - context_lines) in
  let end_ :=
    Z.min (Z.of_nat (length lines) - 1) (Z.of_nat index + context_lines) in
  (fun i : nat =>
     {| cl_line_number := Z.of_nat i + 1;
        cl_content := default [] (lines !! i);
        is_match := bool_decide (i = index) |})
    <$> seq (Z.to_nat start) (Z.to_nat (end_ - start + 1)).

(** The body of the [forEach] of [searchInFile], from line [index] on. *)
Fixpoint scanLines (test : str -> bool) (context_lines : Z)
    (lines : list str) (rest : list str) (index : nat) : list SearchMatch :=
  match rest with
  | [] => []
  | line :: rest' =>
      if test line then
        {| sm_line_number := Z.of_nat index + 1;
           sm_content := line;
           sm_context :=
             if context_lines >? 0
             then Some (contextLoop lines index context_lines)
             else None |}
          :: scanLines test context_lines lines rest' (S index)
      else scanLines test context_lines lines rest' (S index)
  end.

(** The object returned by [searchInFile]. *)
Record SearchResult : Type := {
  sr2_success : bool;
  sr2_file_path : str;
  sr2_search_text : str;
  matches : list SearchMatch;
  total_matches : nat
}.

(** [searchInFile({ file_path, search_text, case_sensitive = true,
    use_regex = false, context_lines = 0 })] *)
Definition searchInFile (file_path search_text : str)
    (case_sensitive use_regex : bool) (context_lines : Z)
  : tool SearchResult :=
  safePath <- run (lift (_resolveSandboxPath SANDBOX_DIR file_path)) ;;
  content <- run (readFile safePath) ;;
  let lines := JS.split JS.LF content in
  match searchRegexOf search_text case_sensitive use_regex with
  | inl e => tool_throw e
  | inr test =>
      let matches := scanLines test context_lines lines lines 0 in
      tool_ret {| sr2_success := true;
                  sr2_file_path := file_path;
                  sr2_search_text := search_text;
                  matches := matches;
                  total_matches := length matches |}
  end.

(** The object returned by [getCodeContext]. *)
Record CodeContextResult : Type := {
  cc_success : bool;
  cc_file_path : str;
  center_line : Z;
  context : str
}.

(** [getCodeContext({ file_path, line_number, context_lines = 5 })]. The
    indices of the loop lie inside [lines]. *)
Definition getCodeContext (file_path : str) (line_number context_lines : Z)
  : tool CodeContextResult :=
  safePath <- run (lift (_resolveSandboxPath SANDBOX_DIR file_path)) ;;
  content <- run (readFile safePath) ;;
  let lines := JS.split JS.LF content in
  if (line_number <? 1) || (line_number >? Z.of_nat (length lines)) then
    tool_throw (LineOutOfRange line_number (length lines))
  else
    let start := Z.max 1 (line_number - context_lines) in
    let end_ := Z.min (Z.of_nat (length lines)) (line_number + context_lines) in
    let snippet :=
      (fun i : nat =>
         JSExtra.numberToString (i + 1) ++ js ": "
           ++ default (js "undefined") (lines !! i))
        <$> seq (Z.to_nat (start - 1)) (Z.to_nat (end_ - (start - 1))) in
    tool_ret {| cc_success := true;
                cc_file_path := file_path;
                center_line := line_number;
                context := JS.join JS.LF snippet |}.

(** The object returned by [deleteLines]. *)
Record DeleteLinesResult : Type := {
  dl_success : bool;
  dl_file_path : str;
  lines_deleted : Z;
  new_total_lines : nat
}.

(** [deleteLines({ file_path, start_line, end_line })] *)
Definition deleteLines (file_path : str) (start_line end_line : Z)
  : tool DeleteLinesResult :=
  safePath <- run (lift (_resolveSandboxPath SANDBOX_DIR file_path)) ;;
  content <- run (readFile safePath) ;;
  let lines := JS.split JS.LF content in
  if (start_line <? 1) || (end_line >? Z.of_nat (length lines))
     || (start_line >? end_line) then
    tool_throw (InvalidRange start_line end_line (length lines))
  else
    let lines :=
      JS.splice lines (start_line - 1) (end_line - start_line + 1) [] in
    run (writeFile safePath (JS.join JS.LF lines)) ;;;
    tool_ret {| dl_success := true;
                dl_file_path := file_path;
                lines_deleted := end_line - start_line + 1;
                new_total_lines := length lines |}.

(** The object returned by [readFileContent]. *)
Record ReadResult : Type := {
  rf_success : bool;
  rf_file_path : str;
  rf_content : str;
  size_bytes : nat;
  rf_lines : nat
}.

(** [readFileContent({ file_path })]; [stats.size] is the number of bytes
    of the file, which holds the UTF-8 encoding of its content. *)
Definition readFileContent (file_path : str) : io ReadResult :=
  (safePath <- lift (_resolveSandboxPath SANDBOX_DIR file_path) ;;
   content <- readFile safePath ;;
   ret {| rf_success := true;
          rf_file_path := file_path;
          rf_content := content;
          size_bytes := JSExtra.byteLength content;
          rf_lines := length (JS.split JS.LF content) |})%io.

(** [deleteFile({ file_path })]; the result object carries no information
    beyond the path. *)
Definition deleteFile (file_path : str) : io str :=
  (safePath <- lift (_resolveSandboxPath SANDBOX_DIR file_path) ;;
   unlink safePath ;;;
   ret file_path)%io.

(** [moveOrRenameFile({ source_path, destination_path })]; the result
    object carries the two paths. *)
Definition moveOrRenameFile (source_path destination_path : str)
  : io (str * str) :=
  (safeSrc <- lift (_resolveSandboxPath SANDBOX_DIR source_path) ;;
   safeDst <- lift (_resolveSandboxPath SANDBOX_DIR destination_path) ;;
   rename safeSrc safeDst ;;;
   ret (source_path, destination_path))%io.

(** The object returned by [appendPrependContent]. *)
Record AppendResult : Type := {
  ap_success : bool;
  ap_file_path : str;
  ap_position : str;
  bytes_added : nat
}.

(** [appendPrependContent({ file_path, content, position,
    create_if_missing = false })] *)
Definition appendPrependContent (file_path content position : str)
    (create_if_missing : bool) : io AppendResult :=
  (safePath <- lift (_resolveSandboxPath SANDBOX_DIR file_path) ;;
   existing <-
     try_catch (readFile safePath)
       (fun e =>
          if negb create_if_missing then throw e
          else match e with ENOENT _ => ret [] | _ => throw e end) ;;
   let newContent :=
     if bool_decide (position = js "prepend") then content ++ existing
     else existing ++ content in
   writeFile safePath newContent ;;;
   ret {| ap_success := true;
          ap_file_path := file_path;
          ap_position := position;
          bytes_added := JSExtra.byteLength content |})%io.

(** The inner loop of [searchAcrossFiles], from line [index] on with
    [found] matches collected so far. *)
Fixpoint scanLinesCapped (test : str -> bool) (context_lines : Z)
    (max_matches_per_file : Z) (lines : list str) (rest : list str)
    (index found : nat) : list SearchMatch :=
  match rest with
  | [] => []
  | line :: rest' =>
      if Z.of_nat found <? max_matches_per_file then
        if test line then
          {| sm_line_number := Z.of_nat index + 1;
             sm_content := line;
             sm_context :=
               if context_lines >? 0 then
                 let start := Z.max 0 (Z.of_nat index - context_lines) in
                 let end_ :=
                   Z.min (Z.of_nat (length lines) - 1)
                         (Z.of_nat index + context_lines) in
                 Some (imap
                         (fun idx l =>
                            {| cl_line_number := start + Z.of_nat idx + 1;
                               cl_content := l;
                               is_match :=
                                 bool_decide
                                   (start + Z.of_nat idx = Z.of_nat index) |})
                         (JSExtra.slice lines start (end_ + 1)))
               else None |}
            :: scanLinesCapped test context_lines max_matches_per_file lines
                 rest' (S index) (S found)
        else scanLinesCapped test context_lines max_matches_per_file lines
               rest' (S index) found
      else []
  end.

(** An element of [results] of [searchAcrossFiles]. *)
Record FileMatches : Type := {
  fm_file_path : str;
  fm_matches : list SearchMatch;
  match_count : nat
}.

(** The loop over [filesToSearch]; a file that cannot be read is skipped. *)
Fixpoint searchFiles (test : str -> bool) (context_lines : Z)
    (max_matches_per_file : Z) (fs : Files) (filesToSearch : list str)
  : list FileMatches :=
  match filesToSearch with
  | [] => []
  | file :: others =>
      let filePath := PathExtra.join SANDBOX_DIR file in
      let following :=
        searchFiles test context_lines max_matches_per_file fs others in
      match fs !! filePath with
      | Some content =>
          let lines := JS.split JS.LF content in
          let fileMatches :=
            scanLinesCapped test context_lines max_matches_per_file lines
              lines 0 0 in
          if (0 <? length fileMatches)%nat then
            {| fm_file_path := file;
               fm_matches := fileMatches;
               match_count := length fileMatches |} :: following
          else following
      | None => following
      end
  end.

(** The object returned by [searchAcrossFiles]. *)
Record AcrossResult : Type := {
  ar_success : bool;
  ar_search_text : str;
  files_searched : nat;
  files_with_matches : nat;
  results : list FileMatches
}.

(** [searchAcrossFiles({ search_text, file_pattern = '*', case_sensitive,
    use_regex, max_files = 100, max_matches_per_file = 10,
    context_lines = 0 })]. [files] is what [glob] returns for the pattern:
    paths of files relative to the sandbox root. *)
Definition searchAcrossFiles (files : list str) (search_text : str)
    (case_sensitive use_regex : bool)
    (max_files max_matches_per_file context_lines : Z) : tool AcrossResult :=
  let filesToSearch := JSExtra.slice files 0 max_files in
  match searchRegexOf search_text case_sensitive use_regex with
  | inl e => tool_throw e
  | inr test =>
      fun fs =>
        let results :=
          searchFiles test context_lines max_matches_per_file fs
            filesToSearch in
        (inr {| ar_success := true;
                ar_search_text := search_text;
                files_searched := length filesToSearch;
                files_with_matches := length results;
                results := results |},
         fs)
  end.

End Tools.

(** ** Vocabulary of the properties *)

(** A window of [lines]: the [length oldLines] lines from index [i] on equal
    [oldLines] once trimmed. *)
Definition isWindow (lines oldLines : list str) (i : nat) : Prop :=
  JS.trim <$> take (length oldLines) (drop i lines) = oldLines.

(** The match modes that run [_performSmartMatch]; a call without a
    [match_mode] is a smart one. *)
Definition isSmartMode (match_mode : option str) : Prop :=
  match_mode = None \/ match_mode = Some (js "smart")
  \/ match_mode = Some (js "fuzzy").

(** What [insertLines] reads as the content of the file at [safePath]: the
    content of the file, or the empty string for a missing file when
    [create_if_missing] is set. *)
Definition readsAs (fs : Files) (safePath : str) (create_if_missing : bool)
    (fileContent : str) : Prop :=
  fs !! safePath = Some fileContent
  \/ (fs !! safePath = None /\ create_if_missing = true /\ fileContent = []).

(** The segments of an absolute path. *)
Definition segments (p : str) : list str :=
  filter (fun seg => seg <> []) (JS.split Path.SEP p).

(** Is [p] the directory [root] or a path below it? *)
Definition isInside (root p : str) : bool :=
  bool_decide (segments root `prefix_of` segments p).

(** A sandbox with one file, used to run the operations on concrete input. *)
Definition demo_root : str := js "/root".

Definition demo_fs (content : str) : Files := {[ js "/root/a.txt" := content ]}.

(** A position object with the given fields only. *)
Definition noPosition : Position :=
  {| line_number := None; insert_mode := None; after_pattern := None;
     before_pattern := None; relative_to := None |}.

Definition atLine (n : Z) (mode : option str) : Position :=
  {| line_number := Some n; insert_mode := mode; after_pattern := None;
     before_pattern := None; relative_to := None |}.

Definition relativeTo (pattern : str) (offset : Z) : Position :=
  {| line_number := None; insert_mode := None; after_pattern := None;
     before_pattern := None; relative_to := Some (pattern, offset) |}.

Definition afterPattern (pattern : str) : Position :=
  {| line_number := None; insert_mode := None;
     after_pattern := Some pattern; before_pattern := None;
     relative_to := None |}.

(** A regular-expression engine to run the search operations on concrete
    input: every source compiles, and a line passes the test when it
    contains the source as a literal substring. *)
Definition demo_RegExp (source flags : str) : option (str -> bool) :=
  Some (fun line => JS.includes line source).

(** A segment of a normalized path: not empty, not [.], not [..], and
    without separator. *)
Definition plainSegment (seg : str) : Prop :=
  seg <> [] /\ seg <> js "." /\ seg <> js ".." /\ Path.SEP ∉ seg.

(** [Number.MAX_SAFE_INTEGER], 2^53 - 1. *)
Definition MAX_SAFE_INTEGER : Z := 9007199254740991.

(** [Number.isSafeInteger(n)] for an integer [n]. The source computes on
    doubles; a sum or difference of safe integers whose exact value lies
    between -2^53 and 2^53 is computed exactly, which is where the integer
    arithmetic of the definitions above agrees with it. *)
Definition isSafeInteger (n : Z) : Prop :=
  - MAX_SAFE_INTEGER <= n <= MAX_SAFE_INTEGER.

(** ** Facts about the runtime primitives *)

Module JSFacts.
Import JS.

Lemma startsWith_app (s p : str) :
  startsWith s p = true <-> exists rest, s = p ++ rest.
Proof.
  revert s. induction p as [|c p IH]; intros s; simpl.
  - split; [intros _; by exists s | done].
  - destruct s as [|d s].
    + split; [done | intros [rest H]; discriminate].
    + case_decide as Hcd.
      * subst d. rewrite IH. split; intros [rest H]; exists rest.
        -- by rewrite H.
        -- by injection H.
      * split; [done | intros [rest H]; injection H; congruence].
Qed.

Lemma indexOf_sound (s pat : str) (i : nat) :
  indexOf s pat = Some i ->
  s = take i s ++ pat ++ drop (i + length pat) s.
Proof.
  revert i. induction s as [|c s IH]; intros i; simpl.
  - destruct (startsWith [] pat) eqn:E; [|done].
    intros [= <-]. apply startsWith_app in E as [rest E].
    destruct pat; [done | discriminate].
  - destruct (startsWith (c :: s) pat) eqn:E.
    + intros [= <-]. apply startsWith_app in E as [rest E].
      rewrite E at 1. simpl. f_equal.
      rewrite E. by rewrite drop_app_length.
    + destruct (indexOf s pat) as [k|] eqn:Ek; [|done].
      simpl. intros [= <-]. simpl. f_equal. by apply IH.
Qed.

Lemma indexOf_leftmost (s pat : str) (i : nat) :
  indexOf s pat = Some i ->
  forall pre post, s = pre ++ pat ++ post -> (i <= length pre)%nat.
Proof.
  revert i. induction s as [|c s IH]; intros i; simpl.
  - destruct (startsWith [] pat); [|done]. intros [= <-] ??; lia.
  - destruct (startsWith (c :: s) pat) eqn:E.
    + intros [= <-] ??; lia.
    + destruct (indexOf s pat) as [k|] eqn:Ek; [|done].
      simpl. intros [= <-] pre post H.
      destruct pre as [|d pre].
      * exfalso. simpl in H.
        assert (startsWith (c :: s) pat = true) as E'
          by (apply startsWith_app; by exists post).
        congruence.
      * simpl in H. injection H as -> H. simpl.
        specialize (IH k eq_refl pre post H). lia.
Qed.

Lemma indexOf_complete (s pat pre post : str) :
  s = pre ++ pat ++ post ->
  exists i, indexOf s pat = Some i /\ (i <= length pre)%nat.
Proof.
  revert s. induction pre as [|d pre IH]; intros s H.
  - exists 0%nat. split; [|simpl; lia].
    assert (startsWith s pat = true) as E
      by (apply startsWith_app; by exists post).
    destruct s; simpl; simpl in E; by rewrite E.
  - subst s. simpl.
    destruct (startsWith (d :: pre ++ pat ++ post) pat) eqn:E.
    + exists 0%nat. split; [done | lia].
    + destruct (IH (pre ++ pat ++ post) eq_refl) as (i & Hi & Hle).
      exists (S i). rewrite Hi. split; [done | simpl; lia].
Qed.

(** [includes] holds exactly for the literal substrings. *)
Lemma includes_true (s pat : str) :
  includes s pat = true <-> exists pre post, s = pre ++ pat ++ post.
Proof.
  unfold includes. split.
  - destruct (indexOf s pat) as [i|] eqn:E; [|done].
    intros _. eexists _, _. by apply indexOf_sound.
  - intros (pre & post & H).
    destruct (indexOf_complete _ _ _ _ H) as (i & -> & _). done.
Qed.

(** The leftmost occurrence, given by its context. *)
Lemma indexOf_at (s pat pre post : str) :
  s = pre ++ pat ++ post ->
  (forall pre' post', s = pre' ++ pat ++ post' ->
                      (length pre <= length pre')%nat) ->
  indexOf s pat = Some (length pre).
Proof.
  intros H Hleft.
  destruct (indexOf_complete _ _ _ _ H) as (i & Hi & Hle).
  pose proof (indexOf_sound _ _ _ Hi) as Hs.
  specialize (Hleft _ _ Hs). rewrite length_take in Hleft.
  rewrite Hi. f_equal. lia.
Qed.

Lemma replace_at (s pat pre post replacement : str) :
  s = pre ++ pat ++ post ->
  (forall pre' post', s = pre' ++ pat ++ post' ->
                      (length pre <= length pre')%nat) ->
  replace s pat replacement
  = pre ++ GetSubstitution pat pre post replacement ++ post.
Proof.
  intros H Hleft. unfold replace.
  rewrite (indexOf_at _ _ _ _ H Hleft). subst s.
  rewrite take_app_length.
  replace (drop (length pre + length pat) (pre ++ pat ++ post)) with post;
    [done|].
  by rewrite app_assoc, <- length_app, drop_app_length.
Qed.

(** *** split and join *)

Lemma split_from_nonempty sep cur s : split_from sep cur s <> [].
Proof.
  revert cur. induction s as [|c s IH]; intros cur; simpl; [done|].
  case_decide; [done | apply IH].
Qed.

Lemma split_nonempty sep s : split sep s <> [].
Proof. apply split_from_nonempty. Qed.

Lemma length_split_pos sep s : (0 < length (split sep s))%nat.
Proof.
  pose proof (split_nonempty sep s).
  destruct (split sep s); [done | simpl; lia].
Qed.

Lemma join_cons sep p rest :
  rest <> [] -> join sep (p :: rest) = p ++ sep :: join sep rest.
Proof. by destruct rest. Qed.

Lemma join_split_from sep cur s : join sep (split_from sep cur s) = cur ++ s.
Proof.
  revert cur. induction s as [|c s IH]; intros cur; simpl.
  - by rewrite app_nil_r.
  - case_decide as Hc.
    + subst c. rewrite join_cons by apply split_from_nonempty.
      by rewrite IH.
    + rewrite IH. by rewrite <- app_assoc.
Qed.

(** Splitting a text into pieces and joining them gives the text back. *)
Lemma join_split sep s : join sep (split sep s) = s.
Proof. apply join_split_from. Qed.

Lemma split_from_no_sep sep cur s :
  sep ∉ cur -> Forall (fun piece => sep ∉ piece) (split_from sep cur s).
Proof.
  revert cur. induction s as [|c s IH]; intros cur Hcur; simpl.
  - by constructor.
  - case_decide as Hc.
    + constructor; [done|]. apply IH. apply not_elem_of_nil.
    + apply IH. rewrite elem_of_app, list_elem_of_singleton.
      intros [?|?]; [done | congruence].
Qed.

(** No piece of a split contains the separator. *)
Lemma split_no_sep sep s : Forall (fun piece => sep ∉ piece) (split sep s).
Proof. apply split_from_no_sep, not_elem_of_nil. Qed.

Lemma split_from_app_no_sep sep cur x s :
  sep ∉ x -> split_from sep cur (x ++ s) = split_from sep (cur ++ x) s.
Proof.
  revert cur. induction x as [|c x IH]; intros cur Hx; simpl.
  - by rewrite app_nil_r.
  - rewrite not_elem_of_cons in Hx. destruct Hx as [Hc Hx].
    case_decide; [congruence|].
    rewrite IH by done. by rewrite <- app_assoc.
Qed.

(** Joining pieces free of the separator and splitting the result gives the
    pieces back. *)
Lemma split_join sep pieces :
  pieces <> [] ->
  Forall (fun piece => sep ∉ piece) pieces ->
  split sep (join sep pieces) = pieces.
Proof.
  unfold split. induction pieces as [|p rest IH]; [done|].
  intros _ Hall. apply Forall_cons in Hall as [Hp Hrest].
  destruct rest as [|q rest].
  - simpl. rewrite <- (app_nil_r p) at 1.
    by rewrite split_from_app_no_sep.
  - rewrite join_cons by done.
    rewrite split_from_app_no_sep by done. simpl.
    case_decide; [|done]. f_equal. by apply IH.
Qed.

(** *** splice *)

(** A splice whose range lies inside the array. *)
Lemma splice_in_range {A} (arr items : list A) (i n : nat) :
  (i + n <= length arr)%nat ->
  splice arr (Z.of_nat i) (Z.of_nat n) items
  = take i arr ++ items ++ drop (i + n) arr.
Proof.
  intros Hle. unfold splice.
  destruct (Z.ltb_spec (Z.of_nat i) 0) as [?|_]; [lia|].
  rewrite (Z.min_l (Z.of_nat i)) by lia.
  rewrite Z.max_l by lia. rewrite Z.min_l by lia.
  by rewrite <- Nat2Z.inj_add, !Nat2Z.id.
Qed.

(** A splice that deletes nothing inserts at the clamped position. *)
Lemma splice_insert {A} (arr items : list A) (start : Z) :
  let len := Z.of_nat (length arr) in
  let k := Z.to_nat (if start <? 0 then Z.max (len + start) 0
                     else Z.min start len) in
  splice arr start 0 items = take k arr ++ items ++ drop k arr.
Proof.
  intros len k. subst len k. unfold splice.
  destruct (Z.ltb_spec start 0); do 3 f_equal; lia.
Qed.

(** *** Loops that return at the first hit *)

Lemma find_seq_first (f : nat -> bool) (start len i : nat) :
  (start <= i < start + len)%nat ->
  f i = true ->
  (forall k, (start <= k < i)%nat -> f k = false) ->
  find f (seq start len) = Some i.
Proof.
  revert start. induction len as [|len IH]; intros start Hi Hf Hlow.
  - lia.
  - simpl. destruct (decide (start = i)) as [->|Hne].
    + by rewrite Hf.
    + rewrite Hlow by lia. apply IH; [lia | done | intros; apply Hlow; lia].
Qed.

Lemma find_seq_none (f : nat -> bool) (start len : nat) :
  (forall k, (start <= k < start + len)%nat -> f k = false) ->
  find f (seq start len) = None.
Proof.
  revert start. induction len as [|len IH]; intros start H; [done|].
  simpl. rewrite H by lia. apply IH. intros; apply H; lia.
Qed.

(** *** Trimming and leading white space *)

Lemma trimStart_subset (s : str) (c : ascii) : c ∈ trimStart s -> c ∈ s.
Proof.
  induction s as [|d s IH]; simpl; [done|].
  destruct (isWhiteSpace d); [|done].
  intros ?. right. by apply IH.
Qed.

Lemma trim_subset (s : str) (c : ascii) : c ∈ trim s -> c ∈ s.
Proof.
  unfold trim, trimEnd. rewrite list_elem_of_In, <- in_rev, <- list_elem_of_In.
  intros H%trimStart_subset.
  rewrite list_elem_of_In, <- in_rev, <- list_elem_of_In in H.
  by apply trimStart_subset.
Qed.

Lemma includes_false (s pat : str) :
  includes s pat = false -> forall pre post, s <> pre ++ pat ++ post.
Proof.
  intros H pre post Hs.
  assert (includes s pat = true) by (apply includes_true; eauto).
  congruence.
Qed.

Lemma leadingWhitespace_subset (s : str) (c : ascii) :
  c ∈ leadingWhitespace s -> c ∈ s.
Proof.
  induction s as [|d s IH]; simpl; [done|].
  destruct (isWhiteSpace d); [|by intros ?%elem_of_nil].
  rewrite !elem_of_cons. intros [?|?]; [by left | right; by apply IH].
Qed.

End JSFacts.

(** ** Facts about the matching loops and the two operations *)

Section ServerFacts.
Import JS JSFacts.

Variable SANDBOX_DIR : str.

Lemma windowMatches_iff (lines oldLines : list str) (i : nat) :
  windowMatches lines oldLines i = true <-> isWindow lines oldLines i.
Proof.
  unfold windowMatches, isWindow. rewrite forallb_forall. split.
  - intros H. apply list_eq. intros j.
    rewrite list_lookup_fmap.
    destruct (decide (j < length oldLines)%nat) as [Hj|Hj].
    + rewrite lookup_take_lt, lookup_drop by done.
      specialize (H j). rewrite in_seq in H. specialize (H ltac:(lia)).
      destruct (lines !! (i + j)%nat) as [line|]; [|done].
      destruct (oldLines !! j) as [old|]; [|done].
      apply bool_decide_eq_true in H. simpl. by rewrite H.
    + rewrite lookup_take_ge by lia. simpl. symmetry.
      apply lookup_ge_None. lia.
  - intros H j Hj. apply in_seq in Hj.
    destruct (lookup_lt_is_Some_2 oldLines j ltac:(lia)) as [old Hold].
    pose proof Hold as Hold'. rewrite <- H in Hold'.
    rewrite list_lookup_fmap, lookup_take_lt, lookup_drop in Hold' by lia.
    rewrite Hold. destruct (lines !! (i + j)%nat) as [line|]; [|done].
    simpl in Hold'. apply bool_decide_eq_true. congruence.
Qed.

Lemma isWindow_in_range (lines oldLines : list str) (i : nat) :
  (0 < length oldLines)%nat ->
  isWindow lines oldLines i ->
  (i + length oldLines <= length lines)%nat.
Proof.
  intros Hpos H. apply (f_equal length) in H.
  rewrite length_fmap, length_take, length_drop in H. lia.
Qed.

(** [oldCode.trim().split('\n')] has at least one element, so the window
    sought by the fuzzy phase is never empty. *)
Lemma length_oldLinesOf_pos (oldCode : str) :
  (0 < length (oldLinesOf oldCode))%nat.
Proof.
  unfold oldLinesOf. rewrite length_fmap. apply length_split_pos.
Qed.

(** The outer loop stops at the lowest window. *)
Lemma findWindow_first (lines oldLines : list str) (i : nat) :
  (0 < length oldLines)%nat ->
  isWindow lines oldLines i ->
  (forall k, (k < i)%nat -> ~ isWindow lines oldLines k) ->
  findWindow lines oldLines = Some i.
Proof.
  intros Hpos Hi Hlow. unfold findWindow.
  pose proof (isWindow_in_range _ _ _ Hpos Hi).
  apply find_seq_first.
  - lia.
  - by apply windowMatches_iff.
  - intros k Hk. apply not_true_is_false.
    rewrite windowMatches_iff. apply Hlow. lia.
Qed.

Lemma findWindow_none (lines oldLines : list str) :
  (forall k, ~ isWindow lines oldLines k) ->
  findWindow lines oldLines = None.
Proof.
  intros H. apply find_seq_none. intros k _.
  apply not_true_is_false. rewrite windowMatches_iff. apply H.
Qed.

(** [smartReplace] in exact mode on a file that can be read. *)
Lemma smartReplace_exact_run fs file_path safePath content old_code new_code :
  _resolveSandboxPath SANDBOX_DIR file_path = inr safePath ->
  fs !! safePath = Some content ->
  smartReplace SANDBOX_DIR file_path old_code new_code (Some (js "exact")) fs
  = if includes content old_code then
      (inr {| sr_success := true; sr_file_path := file_path;
              sr_match_mode := js "exact" |},
       <[safePath := replace content old_code new_code]> fs)
    else (inl (SmartReplaceFailed ExactMatchNotFound), fs).
Proof.
  intros Hp Hf.
  unfold smartReplace, try_catch, bind, lift, readFile. rewrite Hp. simpl.
  rewrite Hf. by destruct (includes content old_code).
Qed.

(** [smartReplace] in smart or fuzzy mode on a file that can be read. *)
Lemma smartReplace_smart_run fs file_path safePath content old_code new_code
    match_mode :
  isSmartMode match_mode ->
  _resolveSandboxPath SANDBOX_DIR file_path = inr safePath ->
  fs !! safePath = Some content ->
  smartReplace SANDBOX_DIR file_path old_code new_code match_mode fs
  = match _performSmartMatch content old_code new_code with
    | Some newContent =>
        (inr {| sr_success := true; sr_file_path := file_path;
                sr_match_mode := default (js "smart") match_mode |},
         <[safePath := newContent]> fs)
    | None => (inl (SmartReplaceFailed NoSmartMatch), fs)
    end.
Proof.
  intros Hm Hp Hf.
  unfold smartReplace, try_catch, bind, lift, readFile. rewrite Hp. simpl.
  rewrite Hf.
  destruct Hm as [->|[->| ->]]; simpl;
    by destruct (_performSmartMatch content old_code new_code).
Qed.

(** A failing [smartReplace] has written nothing. *)
Lemma smartReplace_failure_no_write fs fs' file_path old_code new_code
    match_mode e :
  smartReplace SANDBOX_DIR file_path old_code new_code match_mode fs
  = (inl e, fs') ->
  fs' = fs.
Proof.
  unfold smartReplace, try_catch, bind, lift, readFile, throw, ret, writeFile.
  destruct (_resolveSandboxPath SANDBOX_DIR file_path) as [e0|safePath];
    [by intros [= _ <-]|].
  destruct (fs !! safePath) as [content|]; [|by intros [= _ <-]].
  repeat case_match; simplify_eq; by intros [= <-] || by intros [= _ <-].
Qed.

(** The replacement lines of the fuzzy phase contain no line feed when the
    indentation contains none. *)
Lemma reindentedNewLines_no_LF (indent newCode : str) :
  LF ∉ indent ->
  Forall (fun line => LF ∉ line) (reindentedNewLines indent newCode).
Proof.
  intros Hind. apply Forall_lookup. intros k line.
  unfold reindentedNewLines. rewrite list_lookup_imap.
  destruct (split LF newCode !! k) as [p|] eqn:Hp; [|done].
  simpl. intros [= <-].
  assert (LF ∉ p) as Hnp.
  { pose proof (split_no_sep LF newCode) as Hall.
    rewrite Forall_lookup in Hall. by apply (Hall k). }
  case_decide; [done|].
  destruct (truthy (trim p)); [|done].
  rewrite elem_of_app. intros [?|?%trim_subset]; done.
Qed.

(** The fuzzy phase: without a literal occurrence of [oldCode], the lines
    of the lowest window are replaced by the reindented lines of [newCode]
    and the other lines are kept. *)
Lemma performSmartMatch_fuzzy (content oldCode newCode : str) (i : nat) :
  let lines := split LF content in
  let oldLines := oldLinesOf oldCode in
  includes content oldCode = false ->
  isWindow lines oldLines i ->
  (forall k, (k < i)%nat -> ~ isWindow lines oldLines k) ->
  _performSmartMatch content oldCode newCode
  = Some (join LF
            (take i lines
               ++ reindentedNewLines
                    (default [] (leadingWhitespace <$> lines !! i)) newCode
               ++ drop (i + length oldLines) lines)).
Proof.
  intros lines oldLines Hinc Hi Hlow.
  pose proof (length_oldLinesOf_pos oldCode) as Hpos.
  unfold _performSmartMatch. rewrite Hinc. fold lines oldLines.
  rewrite (findWindow_first lines oldLines i) by done.
  rewrite splice_in_range by (by apply isWindow_in_range).
  done.
Qed.

(** The lines of the fuzzy result, read back by [split]. *)
Lemma split_fuzzy_result (content newCode : str) (i m : nat) :
  let lines := split LF content in
  let indent := default [] (leadingWhitespace <$> lines !! i) in
  split LF (join LF (take i lines ++ reindentedNewLines indent newCode
                       ++ drop m lines))
  = take i lines ++ reindentedNewLines indent newCode ++ drop m lines.
Proof.
  intros lines indent.
  pose proof (split_no_sep LF content) as Hall. fold lines in Hall.
  apply split_join.
  - intros H. apply (f_equal length) in H.
    rewrite !length_app in H. unfold reindentedNewLines in H.
    rewrite length_imap in H.
    pose proof (length_split_pos LF newCode). simpl in H. lia.
  - rewrite !Forall_app. split_and!.
    + by apply Forall_take.
    + apply reindentedNewLines_no_LF. subst indent.
      destruct (lines !! i) as [ref|] eqn:Href; simpl;
        [|apply not_elem_of_nil].
      intros H%leadingWhitespace_subset.
      rewrite Forall_lookup in Hall. by apply (Hall i ref).
    + by apply Forall_drop.
Qed.

End ServerFacts.

(** ** Properties of smart_replace *)

Module SmartReplace.
Import JS JSFacts.

(** C10. Exact-mode [smartReplace], and the exact phase of
    [_performSmartMatch], replace only the leftmost occurrence of
    [old_code]: when [content] is [pre ++ old_code ++ post] and no occurrence
    starts before [pre] ends, the new content is [pre], then the expansion
    of [new_code], then [post]. The text before the occurrence and all the
    text after it, with every later occurrence of [old_code], are kept
    as they were. *)
Theorem exact_replaces_leftmost_only
    root fs file_path safePath content old_code new_code pre post :
  _resolveSandboxPath root file_path = inr safePath ->
  fs !! safePath = Some content ->
  content = pre ++ old_code ++ post ->
  (forall pre' post', content = pre' ++ old_code ++ post' ->
                      (length pre <= length pre')%nat) ->
  let newContent := pre ++ GetSubstitution old_code pre post new_code ++ post in
  smartReplace root file_path old_code new_code (Some (js "exact")) fs
  = (inr {| sr_success := true; sr_file_path := file_path;
            sr_match_mode := js "exact" |},
     <[safePath := newContent]> fs)
  /\ _performSmartMatch content old_code new_code = Some newContent.
Proof.
  intros Hp Hf Hc Hleft newContent.
  assert (includes content old_code = true) as Hinc
    by (apply includes_true; by exists pre, post).
  pose proof (replace_at _ _ _ _ new_code Hc Hleft) as Hr.
  split.
  - rewrite (smartReplace_exact_run root fs file_path safePath content)
      by done.
    by rewrite Hinc, Hr.
  - unfold _performSmartMatch. by rewrite Hinc, Hr.
Qed.

Lemma exact_replaces_leftmost_only_witness :
  smartReplace demo_root (js "a.txt") (js "b") (js "X") (Some (js "exact"))
    (demo_fs (js "abcabc"))
  = (inr {| sr_success := true; sr_file_path := js "a.txt";
            sr_match_mode := js "exact" |},
     <[js "/root/a.txt" := js "aXcabc"]> (demo_fs (js "abcabc")))
  /\ _performSmartMatch (js "abcabc") (js "b") (js "X") = Some (js "aXcabc").
Proof.
  apply (exact_replaces_leftmost_only demo_root (demo_fs (js "abcabc"))
           (js "a.txt") (js "/root/a.txt") (js "abcabc") (js "b") (js "X")
           (js "a") (js "cabc")).
  - reflexivity.
  - reflexivity.
  - reflexivity.
  - intros pre' post' H. destruct pre'; [discriminate | simpl; lia].
Defined.

(** C2. When [old_code] is a literal substring of the content, a smart or
    fuzzy [smartReplace] writes the same new content as an exact one:
    [_performSmartMatch] returns the result of the literal replacement, so
    the line-by-line phase plays no part. *)
Theorem smart_mode_agrees_with_exact_on_literal_match
    root fs file_path safePath content old_code new_code match_mode :
  _resolveSandboxPath root file_path = inr safePath ->
  fs !! safePath = Some content ->
  isSmartMode match_mode ->
  (exists pre post, content = pre ++ old_code ++ post) ->
  _performSmartMatch content old_code new_code
  = Some (replace content old_code new_code)
  /\ (smartReplace root file_path old_code new_code match_mode fs).2
     = (smartReplace root file_path old_code new_code (Some (js "exact")) fs).2
  /\ (smartReplace root file_path old_code new_code match_mode fs).2
     = <[safePath := replace content old_code new_code]> fs.
Proof.
  intros Hp Hf Hm Hsub. apply includes_true in Hsub as Hinc.
  assert (_performSmartMatch content old_code new_code
          = Some (replace content old_code new_code)) as Hpsm
    by (unfold _performSmartMatch; by rewrite Hinc).
  rewrite (smartReplace_smart_run root fs file_path safePath content)
    by done.
  rewrite (smartReplace_exact_run root fs file_path safePath content)
    by done.
  by rewrite Hpsm, Hinc.
Qed.

Lemma smart_mode_agrees_with_exact_on_literal_match_witness :
  _performSmartMatch (js "abcabc") (js "b") (js "X")
  = Some (replace (js "abcabc") (js "b") (js "X"))
  /\ (smartReplace demo_root (js "a.txt") (js "b") (js "X") None
        (demo_fs (js "abcabc"))).2
     = (smartReplace demo_root (js "a.txt") (js "b") (js "X")
          (Some (js "exact")) (demo_fs (js "abcabc"))).2
  /\ (smartReplace demo_root (js "a.txt") (js "b") (js "X") None
        (demo_fs (js "abcabc"))).2
     = <[js "/root/a.txt" := replace (js "abcabc") (js "b") (js "X")]>
         (demo_fs (js "abcabc")).
Proof.
  apply (smart_mode_agrees_with_exact_on_literal_match demo_root
           (demo_fs (js "abcabc")) (js "a.txt") (js "/root/a.txt")).
  - reflexivity.
  - reflexivity.
  - by left.
  - by exists (js "a"), (js "cabc").
Defined.

(** C8. A [smartReplace] that finds no match fails and writes nothing: when
    [old_code] is not a literal substring of the content, an exact call
    throws "Exact match not found", and a smart or fuzzy call whose content
    has no window of lines equal to the trimmed lines of [old_code] throws
    "No match found with smart matching"; in both cases the files are
    exactly as before the call. More generally, whatever the mode, a call
    that fails leaves the files as they were. *)
Theorem no_match_fails_without_writing
    root fs file_path safePath content old_code new_code :
  _resolveSandboxPath root file_path = inr safePath ->
  fs !! safePath = Some content ->
  (forall pre post, content <> pre ++ old_code ++ post) ->
  smartReplace root file_path old_code new_code (Some (js "exact")) fs
  = (inl (SmartReplaceFailed ExactMatchNotFound), fs)
  /\ (forall match_mode,
        isSmartMode match_mode ->
        (forall i, ~ isWindow (split LF content) (oldLinesOf old_code) i) ->
        smartReplace root file_path old_code new_code match_mode fs
        = (inl (SmartReplaceFailed NoSmartMatch), fs))
  /\ (forall match_mode e fs',
        smartReplace root file_path old_code new_code match_mode fs
        = (inl e, fs') ->
        fs' = fs).
Proof.
  intros Hp Hf Hno.
  assert (includes content old_code = false) as Hinc.
  { apply not_true_is_false. rewrite includes_true.
    intros (pre & post & H). by apply (Hno pre post). }
  split_and!.
  - rewrite (smartReplace_exact_run root fs file_path safePath content)
      by done.
    by rewrite Hinc.
  - intros match_mode Hm Hwin.
    rewrite (smartReplace_smart_run root fs file_path safePath content)
      by done.
    unfold _performSmartMatch. rewrite Hinc.
    by rewrite findWindow_none.
  - intros match_mode e fs'. apply smartReplace_failure_no_write.
Qed.

Lemma no_match_fails_without_writing_witness :
  smartReplace demo_root (js "a.txt") (js "x") (js "X") (Some (js "exact"))
    (demo_fs (js "abc"))
  = (inl (SmartReplaceFailed ExactMatchNotFound), demo_fs (js "abc"))
  /\ smartReplace demo_root (js "a.txt") (js "x") (js "X") None
       (demo_fs (js "abc"))
     = (inl (SmartReplaceFailed NoSmartMatch), demo_fs (js "abc")).
Proof.
  assert (forall pre post, js "abc" <> pre ++ js "x" ++ post) as Hno.
  { intros pre post H.
    do 4 (destruct pre as [|? pre]; [discriminate|]). discriminate. }
  destruct (no_match_fails_without_writing demo_root (demo_fs (js "abc"))
              (js "a.txt") (js "/root/a.txt") (js "abc") (js "x") (js "X")
              eq_refl eq_refl Hno) as (Hexact & Hsmart & _).
  split; [exact Hexact|].
  apply Hsmart; [by left|].
  intros i H. destruct i as [|i]; [discriminate|].
  destruct i; discriminate.
Defined.

(** C6, as the claim states it, fails: with an empty [old_code] the call
    succeeds and the file is rewritten with [new_code] put in front. *)
Lemma empty_old_code_counterexample :
  smartReplace demo_root (js "a.txt") [] (js "X") None (demo_fs (js "abc"))
  = (inr {| sr_success := true; sr_file_path := js "a.txt";
            sr_match_mode := js "smart" |},
     <[js "/root/a.txt" := js "Xabc"]> (demo_fs (js "abc")))
  /\ <[js "/root/a.txt" := js "Xabc"]> (demo_fs (js "abc"))
     <> demo_fs (js "abc").
Proof.
  split; [reflexivity|].
  intros H. apply (f_equal (lookup (js "/root/a.txt"))) in H.
  vm_compute in H. discriminate.
Qed.

(** C6, amended. An empty [old_code] is not rejected: the empty string is a
    literal substring of every content, so in exact, smart and fuzzy mode
    the call succeeds and writes the expansion of [new_code] followed by the
    old content. Nor does any [old_code] yield zero match lines: the list
    of its trimmed lines has at least one element. *)
Theorem empty_old_code_prepends
    root fs file_path safePath content new_code match_mode :
  _resolveSandboxPath root file_path = inr safePath ->
  fs !! safePath = Some content ->
  match_mode = Some (js "exact") \/ isSmartMode match_mode ->
  smartReplace root file_path [] new_code match_mode fs
  = (inr {| sr_success := true; sr_file_path := file_path;
            sr_match_mode := default (js "smart") match_mode |},
     <[safePath := GetSubstitution [] [] content new_code ++ content]> fs)
  /\ (forall old_code, (0 < length (oldLinesOf old_code))%nat).
Proof.
  intros Hp Hf Hm. split; [|apply length_oldLinesOf_pos].
  assert (includes content [] = true) as Hinc
    by (apply includes_true; by exists [], content).
  assert (replace content [] new_code
          = GetSubstitution [] [] content new_code ++ content) as Hr.
  { apply (replace_at content [] [] content); [done | intros; simpl; lia]. }
  destruct Hm as [->|Hm].
  - rewrite (smartReplace_exact_run root fs file_path safePath content)
      by done.
    by rewrite Hinc, Hr.
  - rewrite (smartReplace_smart_run root fs file_path safePath content)
      by done.
    unfold _performSmartMatch. by rewrite Hinc, Hr.
Qed.

Lemma empty_old_code_prepends_witness :
  smartReplace demo_root (js "a.txt") [] (js "X") (Some (js "fuzzy"))
    (demo_fs (js "abc"))
  = (inr {| sr_success := true; sr_file_path := js "a.txt";
            sr_match_mode := js "fuzzy" |},
     <[js "/root/a.txt" := js "Xabc"]> (demo_fs (js "abc")))
  /\ (forall old_code, (0 < length (oldLinesOf old_code))%nat).
Proof.
  apply (empty_old_code_prepends demo_root (demo_fs (js "abc")) (js "a.txt")
           (js "/root/a.txt") (js "abc") (js "X") (Some (js "fuzzy"))).
  - reflexivity.
  - reflexivity.
  - right. right. by right.
Defined.

(** C3, as the claim states it, fails: lines 1 and 2 are the two windows
    that equal the trimmed [old_code], yet the literal phase comes first and
    rewrites the occurrence inside line 0; the lowest window is not
    rewritten. *)
Lemma earliest_window_counterexample :
  let content := join LF [js "xfoo"; js "foo"; js "foo"] in
  let lines := split LF content in
  let oldLines := oldLinesOf (js "foo") in
  ~ isWindow lines oldLines 0
  /\ isWindow lines oldLines 1
  /\ isWindow lines oldLines 2
  /\ _performSmartMatch content (js "foo") (js "NEW")
     = Some (join LF [js "xNEW"; js "foo"; js "foo"])
  /\ _performSmartMatch content (js "foo") (js "NEW")
     <> Some (join LF (take 1 lines ++ [js "NEW"] ++ drop 2 lines)).
Proof.
  cbv zeta. split_and!; try reflexivity; discriminate.
Qed.

(** C3, amended. When [old_code] is not a literal substring of the content
    and some window of lines equals the trimmed lines of [old_code], the
    smart replacement rewrites the window with the lowest index [i] and
    nothing else: the lines of the result are the lines before [i], the new
    lines, and the lines after the window. Every later window that starts
    at or after the end of the rewritten one is still a window of the
    result, moved by the change in the number of lines. *)
Theorem fuzzy_rewrites_lowest_window_only content old_code new_code i :
  let lines := split LF content in
  let oldLines := oldLinesOf old_code in
  (forall pre post, content <> pre ++ old_code ++ post) ->
  isWindow lines oldLines i ->
  (forall k, (k < i)%nat -> ~ isWindow lines oldLines k) ->
  exists newLines result,
    _performSmartMatch content old_code new_code = Some result
    /\ length newLines = length (split LF new_code)
    /\ split LF result
       = take i lines ++ newLines ++ drop (i + length oldLines) lines
    /\ (forall k, (i + length oldLines <= k)%nat ->
                  isWindow lines oldLines k ->
                  isWindow (split LF result) oldLines
                           (k - length oldLines + length newLines)).
Proof.
  intros lines oldLines Hno Hi Hlow.
  assert (includes content old_code = false) as Hinc.
  { apply not_true_is_false. rewrite includes_true.
    intros (pre & post & H). by apply (Hno pre post). }
  set (indent := default [] (leadingWhitespace <$> lines !! i)).
  exists (reindentedNewLines indent new_code).
  exists (join LF (take i lines ++ reindentedNewLines indent new_code
                     ++ drop (i + length oldLines) lines)).
  split; [by apply performSmartMatch_fuzzy|].
  split; [unfold reindentedNewLines; by rewrite length_imap|].
  pose proof (split_fuzzy_result content new_code i (i + length oldLines))
    as Hsplit.
  cbv zeta in Hsplit. fold lines indent in Hsplit. fold oldLines in Hsplit.
  split; [done|].
  intros k Hk Hwin. unfold isWindow in *. rewrite Hsplit.
  pose proof (isWindow_in_range lines oldLines i
                (length_oldLinesOf_pos old_code) Hi) as Hrange.
  set (newLines := reindentedNewLines indent new_code).
  assert (drop (k - length oldLines + length newLines)
               (take i lines ++ newLines ++ drop (i + length oldLines) lines)
          = drop k lines) as ->; [|done].
  rewrite app_assoc.
  rewrite drop_app_ge by (rewrite length_app, length_take; lia).
  rewrite length_app, length_take, drop_drop. f_equal. lia.
Qed.

Lemma fuzzy_rewrites_lowest_window_only_witness :
  let content := join LF [js "x"; js "  a"; js "  b"; js "  a"; js "  b"] in
  let old_code := join LF [js "a"; js "b"] in
  let lines := split LF content in
  let oldLines := oldLinesOf old_code in
  exists newLines result,
    _performSmartMatch content old_code (js "NEW") = Some result
    /\ length newLines = length (split LF (js "NEW"))
    /\ split LF result
       = take 1 lines ++ newLines ++ drop (1 + length oldLines) lines
    /\ (forall k, (1 + length oldLines <= k)%nat ->
                  isWindow lines oldLines k ->
                  isWindow (split LF result) oldLines
                           (k - length oldLines + length newLines)).
Proof.
  cbv zeta.
  apply (fuzzy_rewrites_lowest_window_only
           (join LF [js "x"; js "  a"; js "  b"; js "  a"; js "  b"])
           (join LF [js "a"; js "b"]) (js "NEW") 1%nat).
  - apply includes_false. reflexivity.
  - reflexivity.
  - intros k Hk H. destruct k as [|k]; [discriminate | lia].
Defined.

End SmartReplace.

(** ** Facts about insert_lines *)

Section InsertFacts.
Import JS JSFacts.

Variable SANDBOX_DIR : str.

(** [insertLines] on a path inside the sandbox and a file it can read. *)
Lemma insertLines_run fs file_path safePath fileContent content position
    match_occurrence create_if_missing preserve_indentation :
  _resolveSandboxPath SANDBOX_DIR file_path = inr safePath ->
  readsAs fs safePath create_if_missing fileContent ->
  insertLines SANDBOX_DIR file_path content position match_occurrence
    create_if_missing preserve_indentation fs
  = match resolvePosition (split LF fileContent) position match_occurrence
    with
    | inl e => (inl e, fs)
    | inr (insertIndex, matchedLine) =>
        let processedContent :=
          applyIndentation content preserve_indentation matchedLine in
        (inr {| il_success := true;
                il_file_path := file_path;
                inserted_at_line := insertIndex + 1;
                lines_inserted := length (split LF processedContent) |},
         <[safePath :=
             join LF (splice (split LF fileContent) insertIndex 0
                        (split LF processedContent))]> fs)
    end.
Proof.
  intros Hp Hr.
  unfold insertLines, try_catch, bind, lift, readFile. rewrite Hp. simpl.
  destruct Hr as [Hf|(Hf & -> & ->)]; rewrite Hf; simpl;
    by destruct (resolvePosition _ position match_occurrence) as [e|[idx ref]].
Qed.

(** The loop of the [relative_to] branch returns the first line that
    includes the pattern. *)
Lemma findFirst_first (pattern : str) (lines : list str) (start i : nat)
    (line : str) :
  lines !! i = Some line ->
  includes line pattern = true ->
  (forall k l, (k < i)%nat -> lines !! k = Some l ->
               includes l pattern = false) ->
  findFirst pattern lines start = Some ((start + i)%nat, line).
Proof.
  revert start i. induction lines as [|l0 lines IH]; intros start i Hi Hinc Hlow.
  - done.
  - destruct i as [|i]; simpl.
    + injection Hi as ->. rewrite Hinc. do 2 f_equal. lia.
    + rewrite (Hlow 0%nat l0) by (done || lia).
      rewrite (IH (S start) i); [do 2 f_equal; lia | done | done |].
      intros k l Hk Hl. apply (Hlow (S k)); [lia | done].
Qed.

Lemma findFirst_none (pattern : str) (lines : list str) (start : nat) :
  (forall l, l ∈ lines -> includes l pattern = false) ->
  findFirst pattern lines start = None.
Proof.
  revert start. induction lines as [|l0 lines IH]; intros start H; [done|].
  simpl. rewrite H by left. apply IH. intros l Hl. apply H. by right.
Qed.

Lemma findFirst_elem_of pattern lines start i line :
  findFirst pattern lines start = Some (i, line) -> line ∈ lines.
Proof.
  revert start. induction lines as [|l0 lines IH]; intros start; [done|].
  simpl. destruct (includes l0 pattern).
  - intros [= _ ->]. left.
  - intros H. right. by apply (IH (S start)).
Qed.

Lemma findOccurrence_elem_of pattern occ lines start count i line :
  findOccurrence pattern occ lines start count = Some (i, line) ->
  line ∈ lines.
Proof.
  revert start count.
  induction lines as [|l0 lines IH]; intros start count; [done|].
  simpl. destruct (includes l0 pattern).
  - destruct (count + 1 =? occ).
    + intros [= _ ->]. left.
    + intros H. right. by apply (IH _ _ H).
  - intros H. right. by apply (IH _ _ H).
Qed.

(** The anchor line found by the position block is a line of the file, or
    the empty string when the block found no anchor. *)
Lemma resolvePosition_matchedLine lines position occ insertIndex matchedLine :
  resolvePosition lines position occ = inr (insertIndex, matchedLine) ->
  matchedLine = [] \/ matchedLine ∈ lines.
Proof.
  unfold resolvePosition.
  destruct (line_number position); [intros [= _ <-]; by left|].
  destruct (optTruthy (after_pattern position)
            || optTruthy (before_pattern position)).
  - destruct (findOccurrence _ occ lines 0 0) as [[i line]|] eqn:E; [|done].
    intros [= _ <-]. right. by apply findOccurrence_elem_of in E.
  - destruct (relative_to position) as [[pattern offset]|];
      [|intros [= _ <-]; by left].
    destruct (findFirst pattern lines 0) as [[i line]|] eqn:E; [|done].
    intros [= _ <-]. right. by apply findFirst_elem_of in E.
Qed.

(** The payload after "Apply indentation", read back by [split]: the lines
    of the payload, each later non-blank one with the indentation of the
    anchor line put in front. *)
Lemma split_applyIndentation (content matchedLine : str) :
  LF ∉ matchedLine ->
  matchedLine <> [] ->
  split LF (applyIndentation content true matchedLine)
  = imap (fun i line =>
            if bool_decide (i = 0%nat) || negb (truthy (trim line))
            then line else leadingWhitespace matchedLine ++ line)
         (split LF content).
Proof.
  intros Hno Hne. unfold applyIndentation.
  assert (truthy matchedLine = true) as -> by (by destruct matchedLine).
  simpl andb. cbv iota. apply split_join.
  - intros H. apply (f_equal length) in H. rewrite length_imap in H.
    pose proof (length_split_pos LF content). simpl in H. lia.
  - apply Forall_lookup. intros k line. rewrite list_lookup_imap.
    destruct (split LF content !! k) as [p|] eqn:Hp; [|done].
    simpl. intros [= <-].
    assert (LF ∉ p) as Hnp.
    { pose proof (split_no_sep LF content) as Hall.
      rewrite Forall_lookup in Hall. by apply (Hall k). }
    destruct (bool_decide (k = 0%nat) || negb (truthy (trim p))); [done|].
    rewrite elem_of_app. intros [?%leadingWhitespace_subset|?]; done.
Qed.

End InsertFacts.

(** ** Properties of insert_lines *)

Module InsertLines.
Import JS JSFacts.

(** C5. With a [relative_to] descriptor, [insertLines] anchors at the first
    line that includes the pattern, whatever [match_occurrence] is: for the
    first such line, at index [i], the insertion index is [i + offset + 1]
    when [offset >= 0] and [i + offset] when [offset < 0], and the call
    reports that index plus one. When no line includes the pattern the
    call throws "Pattern not found" and writes nothing. The offset, the
    index of the line and the insertion index are safe integers, the range
    in which the additions of the source are exact. *)
Theorem relative_to_uses_first_match
    root fs file_path safePath fileContent content position match_occurrence
    create_if_missing preserve_indentation pattern offset :
  _resolveSandboxPath root file_path = inr safePath ->
  readsAs fs safePath create_if_missing fileContent ->
  line_number position = None ->
  optTruthy (after_pattern position) = false ->
  optTruthy (before_pattern position) = false ->
  relative_to position = Some (pattern, offset) ->
  isSafeInteger offset ->
  let lines := split LF fileContent in
  (forall i line,
      lines !! i = Some line ->
      includes line pattern = true ->
      (forall k l, (k < i)%nat -> lines !! k = Some l ->
                   includes l pattern = false) ->
      let insertIndex :=
        if offset >=? 0 then Z.of_nat i + offset + 1
        else Z.of_nat i + offset in
      isSafeInteger (Z.of_nat i) ->
      isSafeInteger insertIndex ->
      resolvePosition lines position match_occurrence
      = inr (insertIndex, line)
      /\ exists result fs',
           insertLines root file_path content position match_occurrence
             create_if_missing preserve_indentation fs = (inr result, fs')
           /\ inserted_at_line result = insertIndex + 1)
  /\ ((forall l, l ∈ lines -> includes l pattern = false) ->
      insertLines root file_path content position match_occurrence
        create_if_missing preserve_indentation fs
      = (inl (PatternNotFound pattern), fs)).
Proof.
  intros Hp Hr Hln Ha Hb Hrel Hoffset lines.
  pose proof (insertLines_run root fs file_path safePath fileContent content
                position match_occurrence create_if_missing
                preserve_indentation Hp Hr) as Hrun.
  fold lines in Hrun.
  assert (resolvePosition lines position match_occurrence
          = match findFirst pattern lines 0 with
            | Some (i, line) =>
                inr (Z.of_nat i + offset + (if offset >=? 0 then 1 else 0),
                     line)
            | None => inl (PatternNotFound pattern)
            end) as Hres
    by (unfold resolvePosition; by rewrite Hln, Ha, Hb, Hrel).
  split.
  - intros i line Hi Hinc Hlow insertIndex _ _.
    rewrite (findFirst_first pattern lines 0 i line Hi Hinc Hlow) in Hres.
    simpl in Hres.
    assert (resolvePosition lines position match_occurrence
            = inr (insertIndex, line)) as Hres'.
    { rewrite Hres. subst insertIndex. destruct (offset >=? 0);
        do 2 f_equal; lia. }
    split; [done|]. rewrite Hres' in Hrun. eexists _, _. by split.
  - intros Hnone. rewrite (findFirst_none pattern lines 0 Hnone) in Hres.
    by rewrite Hres in Hrun.
Qed.

Lemma relative_to_uses_first_match_witness :
  (resolvePosition (split LF (join LF [js "a"; js "foo"; js "foo"]))
     (relativeTo (js "foo") (-1)) 2
   = inr (0, js "foo")
   /\ exists result fs',
        insertLines demo_root (js "a.txt") (js "X")
          (relativeTo (js "foo") (-1)) 2 false true
          (demo_fs (join LF [js "a"; js "foo"; js "foo"]))
        = (inr result, fs')
        /\ inserted_at_line result = 0 + 1)
  /\ insertLines demo_root (js "a.txt") (js "X")
       (relativeTo (js "foo") 3) 1 false true (demo_fs (js "abc"))
     = (inl (PatternNotFound (js "foo")), demo_fs (js "abc")).
Proof.
  split.
  - apply (proj1 (relative_to_uses_first_match demo_root
                    (demo_fs (join LF [js "a"; js "foo"; js "foo"]))
                    (js "a.txt") (js "/root/a.txt")
                    (join LF [js "a"; js "foo"; js "foo"]) (js "X")
                    (relativeTo (js "foo") (-1)) 2 false true (js "foo") (-1)
                    eq_refl (or_introl eq_refl) eq_refl eq_refl eq_refl
                    eq_refl ltac:(unfold isSafeInteger, MAX_SAFE_INTEGER; lia))
             1%nat (js "foo")).
    + reflexivity.
    + reflexivity.
    + intros k l Hk Hl. destruct k as [|k]; [|lia].
      injection Hl as <-. reflexivity.
    + unfold isSafeInteger, MAX_SAFE_INTEGER. lia.
    + unfold isSafeInteger, MAX_SAFE_INTEGER. simpl. lia.
  - apply (proj2 (relative_to_uses_first_match demo_root (demo_fs (js "abc"))
                    (js "a.txt") (js "/root/a.txt") (js "abc") (js "X")
                    (relativeTo (js "foo") 3) 1 false true (js "foo") 3
                    eq_refl (or_introl eq_refl) eq_refl eq_refl eq_refl
                    eq_refl
                    ltac:(unfold isSafeInteger, MAX_SAFE_INTEGER; lia))).
    intros l Hl. apply list_elem_of_singleton in Hl as ->. reflexivity.
Defined.

(** C9. A position object with none of the strategy fields does not make
    [insertLines] fail: the insertion index stays -1, the splice puts the
    payload immediately before the last line of the file, and the call
    reports success (with [inserted_at_line] 0). *)
Theorem no_strategy_inserts_before_last_line
    root fs file_path safePath fileContent content position match_occurrence
    create_if_missing preserve_indentation :
  _resolveSandboxPath root file_path = inr safePath ->
  readsAs fs safePath create_if_missing fileContent ->
  line_number position = None ->
  after_pattern position = None ->
  before_pattern position = None ->
  relative_to position = None ->
  let lines := split LF fileContent in
  resolvePosition lines position match_occurrence = inr (-1, [])
  /\ exists lastLine,
       lines = take (length lines - 1) lines ++ [lastLine]
       /\ insertLines root file_path content position match_occurrence
            create_if_missing preserve_indentation fs
          = (inr {| il_success := true;
                    il_file_path := file_path;
                    inserted_at_line := 0;
                    lines_inserted := length (split LF content) |},
             <[safePath :=
                 join LF (take (length lines - 1) lines
                            ++ split LF content ++ [lastLine])]> fs).
Proof.
  intros Hp Hr Hln Ha Hb Hrel lines.
  assert (resolvePosition lines position match_occurrence = inr (-1, []))
    as Hres by (unfold resolvePosition; by rewrite Hln, Ha, Hb, Hrel).
  split; [done|].
  pose proof (length_split_pos LF fileContent) as Hpos. fold lines in Hpos.
  destruct (drop (length lines - 1) lines) as [|lastLine rest] eqn:Hdrop.
  { apply (f_equal length) in Hdrop. rewrite length_drop in Hdrop.
    simpl in Hdrop. lia. }
  assert (rest = []) as ->.
  { apply (f_equal length) in Hdrop. rewrite length_drop in Hdrop.
    simpl in Hdrop. destruct rest; [done | simpl in Hdrop; lia]. }
  exists lastLine. split.
  - rewrite <- Hdrop. by rewrite take_drop.
  - rewrite (insertLines_run root fs file_path safePath fileContent)
      by done.
    fold lines. rewrite Hres.
    assert (applyIndentation content preserve_indentation [] = content)
      as -> by (unfold applyIndentation; by rewrite andb_false_r).
    cbv zeta. rewrite splice_insert. cbv zeta.
    replace (Z.to_nat (if -1 <? 0
                       then Z.max (Z.of_nat (length lines) + -1) 0
                       else Z.min (-1) (Z.of_nat (length lines))))
      with (length lines - 1)%nat by (simpl; lia).
    by rewrite Hdrop.
Qed.

Lemma no_strategy_inserts_before_last_line_witness :
  let fileContent := join LF [js "a"; js "b"; js "c"] in
  let lines := split LF fileContent in
  resolvePosition lines noPosition 1 = inr (-1, [])
  /\ exists lastLine,
       lines = take (length lines - 1) lines ++ [lastLine]
       /\ insertLines demo_root (js "a.txt") (js "X") noPosition 1 false true
            (demo_fs fileContent)
          = (inr {| il_success := true;
                    il_file_path := js "a.txt";
                    inserted_at_line := 0;
                    lines_inserted := length (split LF (js "X")) |},
             <[js "/root/a.txt" :=
                 join LF (take (length lines - 1) lines
                            ++ split LF (js "X") ++ [lastLine])]>
               (demo_fs fileContent)).
Proof.
  apply (no_strategy_inserts_before_last_line demo_root
           (demo_fs (join LF [js "a"; js "b"; js "c"])) (js "a.txt")
           (js "/root/a.txt") (join LF [js "a"; js "b"; js "c"]) (js "X")
           noPosition 1 false true).
  - reflexivity.
  - left. reflexivity.
  - reflexivity.
  - reflexivity.
  - reflexivity.
  - reflexivity.
Defined.

(** C7, as the claim states it, fails: on a file of two lines, line number
    10 and line number -5 are both accepted; the payload lands after the
    last line and before the first line. *)
Lemma line_number_out_of_range_counterexample :
  let fs := demo_fs (join LF [js "a"; js "b"]) in
  insertLines demo_root (js "a.txt") (js "X") (atLine 10 None) 1 false true fs
  = (inr {| il_success := true; il_file_path := js "a.txt";
            inserted_at_line := 11; lines_inserted := 1 |},
     <[js "/root/a.txt" := join LF [js "a"; js "b"; js "X"]]> fs)
  /\ insertLines demo_root (js "a.txt") (js "X") (atLine (-5) None) 1 false
       true fs
     = (inr {| il_success := true; il_file_path := js "a.txt";
               inserted_at_line := -4; lines_inserted := 1 |},
        <[js "/root/a.txt" := join LF [js "X"; js "a"; js "b"]]> fs).
Proof.
  split; reflexivity.
Qed.

(** C7, amended. The line_number variant never rejects a line number. For
    a line number that is a safe integer, the index handed to the splice is
    [line_number] (or [line_number - 1] with insert_mode "before") and the
    splice clamps it: an index of [lineCount] or more appends the payload
    after the last line, a negative index counts back from the end of the
    file, and one of [-lineCount] or less puts the payload before the first
    line. The call succeeds and reports the unclamped index plus one. *)
Theorem line_number_is_clamped_not_rejected
    root fs file_path safePath fileContent content position match_occurrence
    create_if_missing preserve_indentation lineNumber :
  _resolveSandboxPath root file_path = inr safePath ->
  readsAs fs safePath create_if_missing fileContent ->
  line_number position = Some lineNumber ->
  isSafeInteger lineNumber ->
  let lines := split LF fileContent in
  let lineCount := Z.of_nat (length lines) in
  let payload := split LF content in
  let insertIndex :=
    if bool_decide (insert_mode position = Some (js "before"))
    then lineNumber - 1 else lineNumber in
  let clamped :=
    Z.to_nat (if insertIndex <? 0 then Z.max (lineCount + insertIndex) 0
              else Z.min insertIndex lineCount) in
  insertLines root file_path content position match_occurrence
    create_if_missing preserve_indentation fs
  = (inr {| il_success := true;
            il_file_path := file_path;
            inserted_at_line := insertIndex + 1;
            lines_inserted := length payload |},
     <[safePath :=
         join LF (take clamped lines ++ payload ++ drop clamped lines)]> fs)
  /\ (lineCount <= insertIndex ->
      take clamped lines ++ payload ++ drop clamped lines = lines ++ payload)
  /\ (insertIndex <= - lineCount ->
      take clamped lines ++ payload ++ drop clamped lines = payload ++ lines).
Proof.
  intros Hp Hr Hln _ lines lineCount payload insertIndex clamped.
  split_and!.
  - rewrite (insertLines_run root fs file_path safePath fileContent)
      by done.
    fold lines. unfold resolvePosition. rewrite Hln. fold insertIndex.
    assert (applyIndentation content preserve_indentation [] = content)
      as -> by (unfold applyIndentation; by rewrite andb_false_r).
    cbv zeta. fold payload. by rewrite splice_insert.
  - intros Hge.
    assert (clamped = length lines) as ->.
    { subst clamped lineCount.
      destruct (Z.ltb_spec insertIndex 0); lia. }
    by rewrite take_ge, drop_ge, app_nil_r by lia.
  - intros Hle.
    assert (clamped = 0%nat) as ->.
    { subst clamped lineCount.
      destruct (Z.ltb_spec insertIndex 0); lia. }
    by rewrite take_0, drop_0.
Qed.

Lemma line_number_is_clamped_not_rejected_witness :
  let fileContent := join LF [js "a"; js "b"] in
  let lines := split LF fileContent in
  let lineCount := Z.of_nat (length lines) in
  let payload := split LF (js "X") in
  let insertIndex :=
    if bool_decide (insert_mode (atLine 10 None) = Some (js "before"))
    then 10 - 1 else 10 in
  let clamped :=
    Z.to_nat (if insertIndex <? 0 then Z.max (lineCount + insertIndex) 0
              else Z.min insertIndex lineCount) in
  insertLines demo_root (js "a.txt") (js "X") (atLine 10 None) 1 false true
    (demo_fs fileContent)
  = (inr {| il_success := true;
            il_file_path := js "a.txt";
            inserted_at_line := insertIndex + 1;
            lines_inserted := length payload |},
     <[js "/root/a.txt" :=
         join LF (take clamped lines ++ payload ++ drop clamped lines)]>
       (demo_fs fileContent))
  /\ (lineCount <= insertIndex ->
      take clamped lines ++ payload ++ drop clamped lines = lines ++ payload)
  /\ (insertIndex <= - lineCount ->
      take clamped lines ++ payload ++ drop clamped lines = payload ++ lines).
Proof.
  apply (line_number_is_clamped_not_rejected demo_root
           (demo_fs (join LF [js "a"; js "b"])) (js "a.txt")
           (js "/root/a.txt") (join LF [js "a"; js "b"]) (js "X")
           (atLine 10 None) 1 false true 10).
  - reflexivity.
  - left. reflexivity.
  - reflexivity.
  - unfold isSafeInteger, MAX_SAFE_INTEGER. lia.
Defined.

End InsertLines.

(** ** Indentation of the payload *)

Module Indentation.
Import JS JSFacts.

(** C4, as the claim states it, fails on the [insertLines] path: the second
    payload line keeps its own two leading spaces behind the four of the
    anchor line, where the claim has them stripped. *)
Lemma insert_keeps_own_whitespace_counterexample :
  let fs := demo_fs (js "    foo();") in
  let payload := join LF [js "x"; js "  y"] in
  insertLines demo_root (js "a.txt") payload (afterPattern (js "foo")) 1
    false true fs
  = (inr {| il_success := true; il_file_path := js "a.txt";
            inserted_at_line := 2; lines_inserted := 2 |},
     <[js "/root/a.txt" :=
         join LF [js "    foo();"; js "x"; js "      y"]]> fs)
  /\ js "      y" <> leadingWhitespace (js "    foo();") ++ trim (js "  y").
Proof.
  split; [reflexivity | discriminate].
Qed.

(** C4, amended. In both paths the first payload line is left as it is and
    blank lines pass through unchanged. In the fuzzy replacement every
    later non-blank line is trimmed and gets the leading white space of the
    first matched line in front. In [insertLines], when an anchor line was
    found and indentation is to be preserved, every later non-blank line
    gets the leading white space of the anchor line in front and keeps its
    own leading and trailing white space. *)
Theorem payload_indentation :
  (forall content old_code new_code i ref,
      let lines := split LF content in
      let oldLines := oldLinesOf old_code in
      (forall pre post, content <> pre ++ old_code ++ post) ->
      isWindow lines oldLines i ->
      (forall k, (k < i)%nat -> ~ isWindow lines oldLines k) ->
      lines !! i = Some ref ->
      exists newLines,
        _performSmartMatch content old_code new_code
        = Some (join LF (take i lines ++ newLines
                           ++ drop (i + length oldLines) lines))
        /\ length newLines = length (split LF new_code)
        /\ forall k p,
             split LF new_code !! k = Some p ->
             newLines !! k
             = Some match k with
                    | O => p
                    | S _ => if decide (trim p = []) then p
                             else leadingWhitespace ref ++ trim p
                    end)
  /\ (forall root fs file_path safePath fileContent content position
             match_occurrence create_if_missing insertIndex ref,
        let lines := split LF fileContent in
        _resolveSandboxPath root file_path = inr safePath ->
        readsAs fs safePath create_if_missing fileContent ->
        resolvePosition lines position match_occurrence
        = inr (insertIndex, ref) ->
        ref <> [] ->
        exists newLines,
          insertLines root file_path content position match_occurrence
            create_if_missing true fs
          = (inr {| il_success := true;
                    il_file_path := file_path;
                    inserted_at_line := insertIndex + 1;
                    lines_inserted := length newLines |},
             <[safePath := join LF (splice lines insertIndex 0 newLines)]> fs)
          /\ length newLines = length (split LF content)
          /\ forall k p,
               split LF content !! k = Some p ->
               newLines !! k
               = Some match k with
                      | O => p
                      | S _ => if decide (trim p = []) then p
                               else leadingWhitespace ref ++ p
                      end).
Proof.
  split.
  - intros content old_code new_code i ref lines oldLines Hno Hi Hlow Href.
    assert (includes content old_code = false) as Hinc.
    { apply not_true_is_false. rewrite includes_true.
      intros (pre & post & H). by apply (Hno pre post). }
    exists (reindentedNewLines (leadingWhitespace ref) new_code).
    split_and!.
    + rewrite (performSmartMatch_fuzzy content old_code new_code i)
        by done.
      fold lines oldLines. by rewrite Href.
    + unfold reindentedNewLines. by rewrite length_imap.
    + intros k p Hk. unfold reindentedNewLines.
      rewrite list_lookup_imap, Hk. simpl. f_equal.
      destruct k as [|k]; [done|]. simpl.
      destruct (trim p); by case_decide.
  - intros root fs file_path safePath fileContent content position
      match_occurrence create_if_missing insertIndex ref lines Hp Hr Hres Hne.
    assert (LF ∉ ref) as HnoLF.
    { destruct (resolvePosition_matchedLine _ _ _ _ _ Hres) as [?|Hin];
        [done|].
      pose proof (split_no_sep LF fileContent) as Hall.
      rewrite Forall_forall in Hall. by apply Hall. }
    pose proof (split_applyIndentation content ref HnoLF Hne) as Hsplit.
    eexists. split_and!.
    + rewrite (insertLines_run root fs file_path safePath fileContent)
        by done.
      fold lines. rewrite Hres. cbv zeta. by rewrite Hsplit.
    + by rewrite length_imap.
    + intros k p Hk. rewrite list_lookup_imap, Hk. simpl. f_equal.
      destruct k as [|k]; [done|]. simpl.
      destruct (trim p); by case_decide.
Qed.

Lemma payload_indentation_witness :
  (exists newLines,
      _performSmartMatch (join LF [js "x"; js "  a"; js "  b"])
        (join LF [js "a"; js "b"]) (join LF [js "c"; js " d "])
      = Some (join LF (take 1 (split LF (join LF [js "x"; js "  a"; js "  b"]))
                         ++ newLines
                         ++ drop (1 + 2)
                              (split LF (join LF [js "x"; js "  a"; js "  b"]))))
      /\ newLines !! 1%nat = Some (js "  d"))
  /\ (exists newLines,
        insertLines demo_root (js "a.txt") (join LF [js "x"; js "  y"])
          (afterPattern (js "foo")) 1 false true (demo_fs (js "    foo();"))
        = (inr {| il_success := true;
                  il_file_path := js "a.txt";
                  inserted_at_line := 1 + 1;
                  lines_inserted := length newLines |},
           <[js "/root/a.txt" :=
               join LF (splice (split LF (js "    foo();")) 1 0 newLines)]>
             (demo_fs (js "    foo();")))
        /\ newLines !! 1%nat = Some (js "      y")).
Proof.
  split.
  - destruct (proj1 payload_indentation
                (join LF [js "x"; js "  a"; js "  b"])
                (join LF [js "a"; js "b"]) (join LF [js "c"; js " d "])
                1%nat (js "  a"))
      as (newLines & Hrun & _ & Hlines).
    + apply includes_false. reflexivity.
    + reflexivity.
    + intros k Hk H. destruct k as [|k]; [discriminate | lia].
    + reflexivity.
    + exists newLines. split; [exact Hrun|].
      apply (Hlines 1%nat (js " d ")). reflexivity.
  - destruct (proj2 payload_indentation demo_root (demo_fs (js "    foo();"))
                (js "a.txt") (js "/root/a.txt") (js "    foo();")
                (join LF [js "x"; js "  y"]) (afterPattern (js "foo")) 1
                false 1 (js "    foo();"))
      as (newLines & Hrun & _ & Hlines).
    + reflexivity.
    + left. reflexivity.
    + reflexivity.
    + discriminate.
    + exists newLines. split; [exact Hrun|].
      apply (Hlines 1%nat (js "  y")). reflexivity.
Defined.

End Indentation.

(** ** Sandbox containment *)

Module Sandbox.
Import JS JSFacts.

(** What the check of [_resolveSandboxPath] does establish: a returned path
    has the text of the sandbox root at its start. *)
Lemma resolveSandboxPath_startsWith root userPath resolvedPath :
  _resolveSandboxPath root userPath = inr resolvedPath ->
  resolvedPath = Path.resolve root userPath
  /\ exists rest, resolvedPath = root ++ rest.
Proof.
  unfold _resolveSandboxPath.
  destruct (startsWith (Path.resolve root userPath) root) eqn:E; [|done].
  simpl. intros [= <-]. split; [done|]. by apply startsWith_app.
Qed.

(** Paths that leave the root through [..] or through an absolute path are
    blocked when the text of the result does not start with the root. *)
Lemma resolveSandboxPath_blocks_plain_escapes :
  _resolveSandboxPath (js "/root") (js "../etc/passwd")
  = inl (PathTraversalBlocked (js "../etc/passwd"))
  /\ _resolveSandboxPath (js "/root") (js "/etc/passwd")
     = inl (PathTraversalBlocked (js "/etc/passwd"))
  /\ _resolveSandboxPath (js "/root") (js "a/../b/./c.txt")
     = inr (js "/root/b/c.txt")
  /\ _resolveSandboxPath (js "/root") (js ".") = inr (js "/root").
Proof.
  split_and!; reflexivity.
Qed.

(** C1: the claim does not hold of the code. With the sandbox root [/root],
    the relative path [../root-evil] and the absolute path
    [/root-evil/secret] are both returned, although neither is the root or
    a path below it: the check compares the text of the two paths and
    [/root-evil] starts with the characters of [/root]. *)
Theorem sibling_directory_escapes_sandbox :
  _resolveSandboxPath (js "/root") (js "../root-evil")
  = inr (js "/root-evil")
  /\ isInside (js "/root") (js "/root-evil") = false
  /\ _resolveSandboxPath (js "/root") (js "/root-evil/secret")
     = inr (js "/root-evil/secret")
  /\ isInside (js "/root") (js "/root-evil/secret") = false
  /\ isInside (js "/root") (js "/root") = true
  /\ isInside (js "/root") (js "/root/b/c.txt") = true.
Proof.
  split_and!; reflexivity.
Qed.

End Sandbox.

(** ** More facts about split *)

Module SplitFacts.
Import JS.

(** Splitting at a separator: the pieces before it, then the pieces after
    it. *)
Lemma split_from_app_sep sep cur a b :
  split_from sep cur (a ++ sep :: b) = split_from sep cur a ++ split sep b.
Proof.
  revert cur. induction a as [|c a IH]; intros cur; simpl.
  - by case_decide.
  - case_decide; by rewrite IH.
Qed.

Lemma split_app_sep sep a b :
  split sep (a ++ sep :: b) = split sep a ++ split sep b.
Proof. apply split_from_app_sep. Qed.

End SplitFacts.

(** ** Facts about the other operations *)

Section ToolFacts.
Import JS JSFacts.

Variable SANDBOX_DIR : str.

(** [deleteLines] on a path inside the sandbox and a file that exists. *)
Lemma deleteLines_run fs file_path safePath content start_line end_line :
  _resolveSandboxPath SANDBOX_DIR file_path = inr safePath ->
  fs !! safePath = Some content ->
  deleteLines SANDBOX_DIR file_path start_line end_line fs
  = let lines := split LF content in
    if (start_line <? 1) || (end_line >? Z.of_nat (length lines))
       || (start_line >? end_line)
    then (inl (InvalidRange start_line end_line (length lines)), fs)
    else
      let lines' :=
        splice lines (start_line - 1) (end_line - start_line + 1) [] in
      (inr {| dl_success := true;
              dl_file_path := file_path;
              lines_deleted := end_line - start_line + 1;
              new_total_lines := length lines' |},
       <[safePath := join LF lines']> fs).
Proof.
  intros Hp Hf.
  unfold deleteLines, tool_bind, run, lift, readFile. rewrite Hp. simpl.
  rewrite Hf. cbv zeta.
  by destruct ((start_line <? 1)
               || (end_line >? Z.of_nat (length (split LF content)))
               || (start_line >? end_line)).
Qed.

(** A splice that only deletes, inside the array. *)
Lemma splice_delete {A} (arr : list A) (start_line end_line : Z) :
  1 <= start_line -> start_line <= end_line ->
  end_line <= Z.of_nat (length arr) ->
  splice arr (start_line - 1) (end_line - start_line + 1) []
  = take (Z.to_nat (start_line - 1)) arr ++ drop (Z.to_nat end_line) arr.
Proof.
  intros H1 H2 H3.
  pose proof (splice_in_range arr [] (Z.to_nat (start_line - 1))
                (Z.to_nat (end_line - start_line + 1)) ltac:(lia)) as H.
  rewrite !Z2Nat.id in H by lia. rewrite H. simpl. do 2 f_equal. lia.
Qed.

(** Lists of lines made of pieces of splits contain no line feed. *)
Lemma no_LF_take_drop (content : str) (i j : nat) (middle : list str) :
  Forall (fun line => LF ∉ line) middle ->
  Forall (fun line => LF ∉ line)
    (take i (split LF content) ++ middle ++ drop j (split LF content)).
Proof.
  intros Hm. pose proof (split_no_sep LF content) as Hall.
  rewrite !Forall_app. split_and!;
    [by apply Forall_take | done | by apply Forall_drop].
Qed.

End ToolFacts.

(** ** Properties of delete_lines and get_code_context *)

Module Lines.
Import JS JSFacts.

(** X1. On a file of [lineCount] lines, [deleteLines] with
    [1 <= start_line <= end_line <= lineCount] removes exactly the lines
    [start_line] to [end_line]: the file becomes the lines before them
    followed by the lines after them, and the call reports
    [end_line - start_line + 1] deleted lines and the number of lines that
    remain. When a line remains, reading the file back gives those lines. *)
Theorem deleteLines_removes_range
    root fs file_path safePath content start_line end_line :
  _resolveSandboxPath root file_path = inr safePath ->
  fs !! safePath = Some content ->
  let lines := split LF content in
  1 <= start_line -> start_line <= end_line ->
  end_line <= Z.of_nat (length lines) ->
  let remaining :=
    take (Z.to_nat (start_line - 1)) lines ++ drop (Z.to_nat end_line) lines in
  deleteLines root file_path start_line end_line fs
  = (inr {| dl_success := true;
            dl_file_path := file_path;
            lines_deleted := end_line - start_line + 1;
            new_total_lines := length remaining |},
     <[safePath := join LF remaining]> fs)
  /\ Z.of_nat (length remaining)
     = Z.of_nat (length lines) - (end_line - start_line + 1)
  /\ (remaining <> [] -> split LF (join LF remaining) = remaining).
Proof.
  intros Hp Hf lines H1 H2 H3 remaining. split_and!.
  - rewrite (deleteLines_run root fs file_path safePath content) by done.
    cbv zeta. fold lines.
    destruct (Z.ltb_spec start_line 1); [lia|].
    destruct (Z.gtb_spec end_line (Z.of_nat (length lines))); [lia|].
    destruct (Z.gtb_spec start_line end_line); [lia|]. simpl.
    by rewrite splice_delete.
  - subst remaining. rewrite length_app, length_take, length_drop. lia.
  - intros Hne. apply split_join; [done|]. subst remaining lines.
    apply (no_LF_take_drop content _ _ []). constructor.
Qed.

Lemma deleteLines_removes_range_witness :
  let content := join LF [js "line1"; js "line2"; js "line3"] in
  let lines := split LF content in
  let remaining :=
    take (Z.to_nat (2 - 1)) lines ++ drop (Z.to_nat 2) lines in
  deleteLines demo_root (js "a.txt") 2 2 (demo_fs content)
  = (inr {| dl_success := true;
            dl_file_path := js "a.txt";
            lines_deleted := 2 - 2 + 1;
            new_total_lines := length remaining |},
     <[js "/root/a.txt" := join LF remaining]> (demo_fs content))
  /\ Z.of_nat (length remaining) = Z.of_nat (length lines) - (2 - 2 + 1)
  /\ (remaining <> [] -> split LF (join LF remaining) = remaining).
Proof.
  apply (deleteLines_removes_range demo_root
           (demo_fs (join LF [js "line1"; js "line2"; js "line3"]))
           (js "a.txt") (js "/root/a.txt")
           (join LF [js "line1"; js "line2"; js "line3"]) 2 2).
  - reflexivity.
  - reflexivity.
  - lia.
  - lia.
  - simpl. lia.
Defined.

(** X2. [deleteLines] rejects every range that is not inside the file: when
    [start_line < 1], [end_line > lineCount] or [start_line > end_line] it
    throws "Invalid range" and the files are as before the call. *)
Theorem deleteLines_rejects_invalid_range
    root fs file_path safePath content start_line end_line :
  _resolveSandboxPath root file_path = inr safePath ->
  fs !! safePath = Some content ->
  start_line < 1 \/ end_line > Z.of_nat (length (split LF content))
  \/ start_line > end_line ->
  deleteLines root file_path start_line end_line fs
  = (inl (InvalidRange start_line end_line (length (split LF content))), fs).
Proof.
  intros Hp Hf Hbad.
  rewrite (deleteLines_run root fs file_path safePath content) by done.
  cbv zeta.
  destruct (Z.ltb_spec start_line 1); [done|].
  destruct (Z.gtb_spec end_line (Z.of_nat (length (split LF content))));
    [done|].
  destruct (Z.gtb_spec start_line end_line); [done|]. lia.
Qed.

Lemma deleteLines_rejects_invalid_range_witness :
  deleteLines demo_root (js "a.txt") 0 1 (demo_fs (js "abc"))
  = (inl (InvalidRange 0 1 (length (split LF (js "abc")))),
     demo_fs (js "abc")).
Proof.
  apply (deleteLines_rejects_invalid_range demo_root (demo_fs (js "abc"))
           (js "a.txt") (js "/root/a.txt") (js "abc") 0 1).
  - reflexivity.
  - reflexivity.
  - left. lia.
Defined.

(** X3. Inserting a payload at a line number inside the file and then
    deleting the lines the insertion reports gives the file system back:
    after [insertLines] at [line_number = n] with [0 <= n <= lineCount],
    [deleteLines] from [n + 1] to [n + lines_inserted] restores every
    file. *)
Theorem insert_then_delete_restores
    root fs file_path safePath fileContent content position match_occurrence
    create_if_missing preserve_indentation n :
  _resolveSandboxPath root file_path = inr safePath ->
  fs !! safePath = Some fileContent ->
  line_number position = Some n ->
  insert_mode position <> Some (js "before") ->
  0 <= n <= Z.of_nat (length (split LF fileContent)) ->
  exists inserted fs1 deleted,
    insertLines root file_path content position match_occurrence
      create_if_missing preserve_indentation fs = (inr inserted, fs1)
    /\ deleteLines root file_path (n + 1)
         (n + Z.of_nat (lines_inserted inserted)) fs1
       = (inr deleted, fs)
    /\ lines_deleted deleted = Z.of_nat (lines_inserted inserted).
Proof.
  intros Hp Hf Hln Hmode Hn.
  set (lines := split LF fileContent) in *.
  set (payload := split LF content).
  set (lines' := take (Z.to_nat n) lines ++ payload ++ drop (Z.to_nat n) lines).
  assert (resolvePosition lines position match_occurrence = inr (n, []))
    as Hres.
  { unfold resolvePosition. rewrite Hln.
    by rewrite bool_decide_eq_false_2. }
  assert (applyIndentation content preserve_indentation [] = content)
    as Hind by (unfold applyIndentation; by rewrite andb_false_r).
  assert (splice lines n 0 payload = lines') as Hsplice.
  { rewrite splice_insert. cbv zeta.
    destruct (Z.ltb_spec n 0); [lia|]. by rewrite Z.min_l by lia. }
  pose proof (length_split_pos LF content) as Hk. fold payload in Hk.
  assert (split LF (join LF lines') = lines') as Hback.
  { apply split_join.
    - intros H. apply (f_equal length) in H. subst lines'.
      rewrite !length_app in H. simpl in H. lia.
    - apply no_LF_take_drop, split_no_sep. }
  assert (length lines' = (length lines + length payload)%nat) as Hlen.
  { subst lines'. rewrite !length_app, length_take, length_drop. lia. }
  eexists _, _, _. split_and!.
  - rewrite (insertLines_run root fs file_path safePath fileContent)
      by (done || by left).
    fold lines. rewrite Hres. cbv zeta. rewrite Hind. fold payload.
    rewrite Hsplice. reflexivity.
  - simpl. fold payload.
    rewrite (deleteLines_run root _ file_path safePath (join LF lines'))
      by (done || apply lookup_insert_eq).
    cbv zeta. rewrite Hback, Hlen.
    destruct (Z.ltb_spec (n + 1) 1); [lia|].
    destruct (Z.gtb_spec (n + Z.of_nat (length payload))
                (Z.of_nat (length lines + length payload))); [lia|].
    destruct (Z.gtb_spec (n + 1) (n + Z.of_nat (length payload))); [lia|].
    simpl. rewrite splice_delete by lia.
    replace (Z.to_nat (n + 1 - 1)) with (Z.to_nat n) by lia.
    assert (take (Z.to_nat n) lines'
              ++ drop (Z.to_nat (n + Z.of_nat (length payload))) lines'
            = lines) as Hrest.
    { subst lines'.
      rewrite take_app_le by (rewrite length_take; lia).
      rewrite take_take, Nat.min_id.
      rewrite app_assoc, drop_app_ge
        by (rewrite length_app, length_take; lia).
      rewrite length_app, length_take.
      replace (Z.to_nat (n + Z.of_nat (length payload))
               - (Z.to_nat n `min` length lines + length payload))%nat
        with 0%nat by lia.
      by rewrite drop_0, take_drop. }
    rewrite Hrest. subst lines. rewrite join_split.
    rewrite insert_insert_eq, insert_id by done.
    reflexivity.
  - simpl. lia.
Qed.

Lemma insert_then_delete_restores_witness :
  exists inserted fs1 deleted,
    insertLines demo_root (js "a.txt") (join LF [js "X"; js "Y"])
      (atLine 1 None) 1 false true (demo_fs (join LF [js "a"; js "b"]))
    = (inr inserted, fs1)
    /\ deleteLines demo_root (js "a.txt") (1 + 1)
         (1 + Z.of_nat (lines_inserted inserted)) fs1
       = (inr deleted, demo_fs (join LF [js "a"; js "b"]))
    /\ lines_deleted deleted = Z.of_nat (lines_inserted inserted).
Proof.
  apply (insert_then_delete_restores demo_root
           (demo_fs (join LF [js "a"; js "b"])) (js "a.txt")
           (js "/root/a.txt") (join LF [js "a"; js "b"])
           (join LF [js "X"; js "Y"]) (atLine 1 None) 1 false true 1).
  - reflexivity.
  - reflexivity.
  - reflexivity.
  - discriminate.
  - simpl. lia.
Defined.

End Lines.

(** ** Facts about the search loops *)

Section SearchFacts.
Import JS JSFacts.

Variable SANDBOX_DIR : str.
Variable RegExp : str -> str -> option (str -> bool).

(** [searchInFile] on a file that exists, with a pattern that compiles. *)
Lemma searchInFile_run fs file_path safePath content search_text
    case_sensitive use_regex context_lines test :
  _resolveSandboxPath SANDBOX_DIR file_path = inr safePath ->
  fs !! safePath = Some content ->
  searchRegexOf RegExp search_text case_sensitive use_regex = inr test ->
  searchInFile SANDBOX_DIR RegExp file_path search_text case_sensitive
    use_regex context_lines fs
  = (inr {| sr2_success := true;
            sr2_file_path := file_path;
            sr2_search_text := search_text;
            matches := scanLines test context_lines (split LF content)
                         (split LF content) 0;
            total_matches :=
              length (scanLines test context_lines (split LF content)
                        (split LF content) 0) |},
     fs).
Proof.
  intros Hp Hf Hre.
  unfold searchInFile, tool_bind, run, lift, readFile. rewrite Hp. simpl.
  rewrite Hf. by rewrite Hre.
Qed.

(** The matches collected from line [index] on are the lines that pass the
    test, each with its number. *)
Lemma scanLines_elem test context_lines all rest index m :
  m ∈ scanLines test context_lines all rest index
  <-> exists j line,
        rest !! j = Some line /\ test line = true
        /\ m = {| sm_line_number := Z.of_nat (index + j) + 1;
                  sm_content := line;
                  sm_context :=
                    if context_lines >? 0
                    then Some (contextLoop all (index + j) context_lines)
                    else None |}.
Proof.
  revert index. induction rest as [|l rest IH]; intros index; simpl.
  - split; [by intros ?%elem_of_nil | by intros (j & line & ? & _)].
  - assert (forall j, (index + S j = S index + j)%nat) as Hshift
      by (intros; lia).
    destruct (test l) eqn:E.
    + rewrite elem_of_cons, IH. split.
      * intros [->|(j & line & Hj & Ht & ->)].
        -- exists 0%nat, l. by rewrite Nat.add_0_r.
        -- exists (S j), line. by rewrite Hshift.
      * intros (j & line & Hj & Ht & ->). destruct j as [|j].
        -- left. injection Hj as <-. by rewrite Nat.add_0_r.
        -- right. exists j, line. by rewrite Hshift.
    + rewrite IH. split.
      * intros (j & line & Hj & Ht & ->). exists (S j), line.
        by rewrite Hshift.
      * intros (j & line & Hj & Ht & ->). destruct j as [|j].
        -- injection Hj as <-. congruence.
        -- exists j, line. by rewrite Hshift.
Qed.

(** The matches come in the order of the lines. *)
Lemma scanLines_sorted test context_lines all rest index :
  StronglySorted (fun a b => sm_line_number a < sm_line_number b)
    (scanLines test context_lines all rest index).
Proof.
  revert index. induction rest as [|l rest IH]; intros index; simpl.
  - constructor.
  - destruct (test l); [|apply IH].
    constructor; [apply IH|].
    apply Forall_forall. intros m (j & line & _ & _ & ->)%scanLines_elem.
    simpl. lia.
Qed.

(** The context built by [slice] and [map] in [searchAcrossFiles] is the
    context built by the loop of [searchInFile]. *)
Lemma context_slice_eq (lines : list str) (index : nat) (context_lines : Z) :
  0 < context_lines ->
  (index < length lines)%nat ->
  let start := Z.max 0 (Z.of_nat index - context_lines) in
  let end_ :=
    Z.min (Z.of_nat (length lines) - 1) (Z.of_nat index + context_lines) in
  imap (fun idx l =>
          {| cl_line_number := start + Z.of_nat idx + 1;
             cl_content := l;
             is_match := bool_decide (start + Z.of_nat idx = Z.of_nat index) |})
       (JSExtra.slice lines start (end_ + 1))
  = contextLoop lines index context_lines.
Proof.
  intros Hctx Hidx start end_. unfold contextLoop, JSExtra.slice.
  fold start end_.
  destruct (Z.ltb_spec start 0); [lia|].
  destruct (Z.ltb_spec (end_ + 1) 0); [lia|].
  rewrite (Z.min_l start) by lia. rewrite (Z.min_l (end_ + 1)) by lia.
  rewrite Z.max_l by lia.
  replace (end_ + 1 - start) with (end_ - start + 1) by lia.
  set (count := Z.to_nat (end_ - start + 1)).
  apply list_eq. intros k.
  rewrite list_lookup_imap, list_lookup_fmap.
  destruct (decide (k < count)%nat) as [Hk|Hk].
  - rewrite lookup_take_lt, lookup_drop, lookup_seq_lt by done.
    destruct (lookup_lt_is_Some_2 lines (Z.to_nat start + k)%nat
                ltac:(lia)) as [l Hl].
    rewrite Hl. simpl. rewrite Hl. simpl. f_equal.
    f_equal; [lia | apply bool_decide_ext; lia].
  - rewrite lookup_take_ge, lookup_seq_ge by lia. done.
Qed.

(** The capped loop of [searchAcrossFiles] collects the first matches of
    the loop of [searchInFile]. *)
Lemma scanLinesCapped_take test context_lines cap all rest index found :
  (index + length rest <= length all)%nat ->
  scanLinesCapped test context_lines cap all rest index found
  = take (Z.to_nat (cap - Z.of_nat found))
         (scanLines test context_lines all rest index).
Proof.
  revert index found.
  induction rest as [|l rest IH]; intros index found Hlen; simpl.
  - by rewrite take_nil.
  - simpl in Hlen. destruct (Z.ltb_spec (Z.of_nat found) cap) as [Hlt|Hge].
    + destruct (test l).
      * replace (Z.to_nat (cap - Z.of_nat found))
          with (S (Z.to_nat (cap - Z.of_nat (S found)))) by lia.
        simpl. f_equal.
        -- f_equal. destruct (Z.gtb_spec context_lines 0); [|done].
           f_equal. apply context_slice_eq; lia.
        -- apply IH. lia.
      * rewrite IH by lia. done.
    + replace (Z.to_nat (cap - Z.of_nat found)) with 0%nat by lia.
      by rewrite take_0.
Qed.

(** For the relative path of a file, [path.join] and [path.resolve] build
    the same absolute path. *)
Lemma join_eq_resolve (root file : str) :
  Path.isAbsolute file = false ->
  file <> [] ->
  last file <> Some Path.SEP ->
  PathExtra.join root file = Path.resolve root file.
Proof.
  intros Habs Hne Hlast. unfold PathExtra.join, Path.resolve.
  rewrite Habs. destruct file as [|c file]; [done|].
  rewrite last_app_cons, last_cons_cons.
  destruct (last (c :: file)) as [d|] eqn:E.
  - rewrite bool_decide_eq_false_2 by congruence.
    simpl. by rewrite app_nil_r.
  - simpl. by rewrite app_nil_r.
Qed.

(** [slice(0, max)] keeps the first [max] elements. *)
Lemma slice_from_0 {A} (arr : list A) (max : Z) :
  0 <= max -> JSExtra.slice arr 0 max = take (Z.to_nat max) arr.
Proof.
  intros Hmax. unfold JSExtra.slice. simpl.
  destruct (Z.ltb_spec max 0); [lia|].
  rewrite (Z.min_l 0) by lia. rewrite Z.sub_0_r. simpl. rewrite drop_0.
  destruct (Z.min_spec max (Z.of_nat (length arr))) as [[? ->]|[? ->]].
  - by rewrite Z.max_l by lia.
  - rewrite Z.max_l, Nat2Z.id by lia.
    by rewrite !take_ge by lia.
Qed.

Lemma slice_subseteq {A} (arr : list A) (start end_ : Z) x :
  x ∈ JSExtra.slice arr start end_ -> x ∈ arr.
Proof.
  unfold JSExtra.slice. by intros H%subseteq_take%subseteq_drop.
Qed.

Lemma length_slice_le {A} (arr : list A) (start end_ : Z) :
  (length (JSExtra.slice arr start end_) <= length arr)%nat.
Proof.
  unfold JSExtra.slice. rewrite length_take, length_drop. lia.
Qed.

(** The loop over the files keeps at most one entry per file. *)
Lemma length_searchFiles test context_lines cap fs files :
  (length (searchFiles SANDBOX_DIR test context_lines cap fs files)
   <= length files)%nat.
Proof.
  induction files as [|file files IH]; simpl; [done|].
  destruct (fs !! PathExtra.join SANDBOX_DIR file); [|lia].
  case_match; simpl; lia.
Qed.

(** The entries of the loop over the files follow the order of the files,
    with at most one entry for each. *)
Lemma searchFiles_sublist test context_lines cap fs files :
  fm_file_path <$> searchFiles SANDBOX_DIR test context_lines cap fs files
  `sublist_of` files.
Proof.
  induction files as [|file files IH]; simpl; [done|].
  destruct (fs !! PathExtra.join SANDBOX_DIR file);
    [|by apply sublist_cons].
  case_match; simpl; [by apply sublist_skip | by apply sublist_cons].
Qed.

(** Every entry of the loop over the files is a searched file that could be
    read, with the first matches of its lines, at least one. *)
Lemma searchFiles_elem test context_lines cap fs files entry :
  entry ∈ searchFiles SANDBOX_DIR test context_lines cap fs files ->
  fm_file_path entry ∈ files
  /\ exists content,
       fs !! PathExtra.join SANDBOX_DIR (fm_file_path entry) = Some content
       /\ fm_matches entry
          = take (Z.to_nat cap)
                 (scanLines test context_lines (split LF content)
                    (split LF content) 0)
       /\ match_count entry = length (fm_matches entry)
       /\ (0 < match_count entry)%nat.
Proof.
  induction files as [|file files IH]; simpl; [by intros ?%elem_of_nil|].
  assert (entry ∈ searchFiles SANDBOX_DIR test context_lines cap fs files ->
          fm_file_path entry ∈ file :: files
          /\ exists content,
               fs !! PathExtra.join SANDBOX_DIR (fm_file_path entry)
               = Some content
               /\ fm_matches entry
                  = take (Z.to_nat cap)
                         (scanLines test context_lines (split LF content)
                            (split LF content) 0)
               /\ match_count entry = length (fm_matches entry)
               /\ (0 < match_count entry)%nat) as Hrest.
  { intros [Hin Hc]%IH. split; [by right | done]. }
  destruct (fs !! PathExtra.join SANDBOX_DIR file) as [content|] eqn:Hf;
    [|done].
  destruct (0 <? length _)%nat eqn:Hpos; [|done].
  rewrite elem_of_cons. intros [->|?]; [|by apply Hrest].
  simpl. split; [by left|]. exists content. split_and!; try done.
  - rewrite scanLinesCapped_take by (simpl; lia).
    by rewrite Z.sub_0_r.
  - by apply Nat.ltb_lt in Hpos.
Qed.

End SearchFacts.

(** ** Properties of search_in_file and search_across_files *)

Module Search.
Import JS JSFacts.

(** X4. [searchInFile] reports exactly the lines that pass the test of the
    regular expression: a match with line number [n] and content [line] is
    reported if and only if line [n] of the file (counted from 1) is [line]
    and passes the test. The matches come in increasing order of line
    number, so no line is reported twice, and [total_matches] is their
    number. Nothing is written. *)
Theorem searchInFile_reports_matching_lines
    root RegExp fs file_path safePath content search_text case_sensitive
    use_regex context_lines test :
  _resolveSandboxPath root file_path = inr safePath ->
  fs !! safePath = Some content ->
  searchRegexOf RegExp search_text case_sensitive use_regex = inr test ->
  exists r,
    searchInFile root RegExp file_path search_text case_sensitive use_regex
      context_lines fs = (inr r, fs)
    /\ total_matches r = length (matches r)
    /\ (forall n line,
          (exists m, m ∈ matches r /\ sm_line_number m = n
                     /\ sm_content m = line)
          <-> (1 <= n /\ split LF content !! Z.to_nat (n - 1) = Some line
               /\ test line = true))
    /\ StronglySorted (fun a b => sm_line_number a < sm_line_number b)
         (matches r).
Proof.
  intros Hp Hf Hre. eexists. split_and!.
  - by apply (searchInFile_run root RegExp fs file_path safePath content).
  - done.
  - intros n line. simpl. split.
    + intros (m & (j & l & Hj & Ht & ->)%scanLines_elem & <- & <-). simpl.
      split_and!; [lia | | done].
      by replace (Z.to_nat (Z.of_nat j + 1 - 1)) with j by lia.
    + intros (Hn & Hline & Ht).
      eexists. split; [|split].
      * apply scanLines_elem. by exists (Z.to_nat (n - 1)), line.
      * simpl. lia.
      * done.
  - apply scanLines_sorted.
Qed.

Lemma searchInFile_reports_matching_lines_witness :
  exists r,
    searchInFile demo_root demo_RegExp (js "a.txt") (js "foo") true true 0
      (demo_fs (join LF [js "a"; js "foo"; js "xfoo"]))
    = (inr r, demo_fs (join LF [js "a"; js "foo"; js "xfoo"]))
    /\ total_matches r = length (matches r)
    /\ (forall n line,
          (exists m, m ∈ matches r /\ sm_line_number m = n
                     /\ sm_content m = line)
          <-> (1 <= n
               /\ split LF (join LF [js "a"; js "foo"; js "xfoo"])
                    !! Z.to_nat (n - 1) = Some line
               /\ includes line (js "foo") = true))
    /\ StronglySorted (fun a b => sm_line_number a < sm_line_number b)
         (matches r).
Proof.
  apply (searchInFile_reports_matching_lines demo_root demo_RegExp
           (demo_fs (join LF [js "a"; js "foo"; js "xfoo"])) (js "a.txt")
           (js "/root/a.txt") (join LF [js "a"; js "foo"; js "xfoo"])
           (js "foo") true true 0 (fun line => includes line (js "foo"))).
  - reflexivity.
  - reflexivity.
  - reflexivity.
Defined.

(** X5. The context of a match is clamped to the file. With
    [context_lines > 0], the context of the match at line [n] lists the
    lines from [max 1 (n - context_lines)] to
    [min lineCount (n + context_lines)], one entry per line in order; each
    entry carries the text of the line with its number, and is flagged
    exactly when it is line [n]. With [context_lines <= 0] a match has no
    context. *)
Theorem searchInFile_context_is_clamped
    root RegExp fs file_path safePath content search_text case_sensitive
    use_regex context_lines test r m :
  _resolveSandboxPath root file_path = inr safePath ->
  fs !! safePath = Some content ->
  searchRegexOf RegExp search_text case_sensitive use_regex = inr test ->
  searchInFile root RegExp file_path search_text case_sensitive use_regex
    context_lines fs = (inr r, fs) ->
  m ∈ matches r ->
  let lines := split LF content in
  let n := sm_line_number m in
  let first := Z.max 1 (n - context_lines) in
  let last := Z.min (Z.of_nat (length lines)) (n + context_lines) in
  (context_lines <= 0 -> sm_context m = None)
  /\ (0 < context_lines ->
      1 <= first /\ first <= n /\ n <= last
      /\ last <= Z.of_nat (length lines)
      /\ exists entries,
           sm_context m = Some entries
           /\ cl_line_number <$> entries
              = (fun k => first + Z.of_nat k)
                  <$> seq 0 (Z.to_nat (last - first + 1))
           /\ forall e, e ∈ entries ->
                lines !! Z.to_nat (cl_line_number e - 1)
                = Some (cl_content e)
                /\ is_match e = bool_decide (cl_line_number e = n)).
Proof.
  intros Hp Hf Hre Hrun Hm lines n first last.
  rewrite (searchInFile_run root RegExp fs file_path safePath content
             search_text case_sensitive use_regex context_lines test)
    in Hrun by done.
  injection Hrun as <-. simpl in Hm. fold lines in Hm.
  apply scanLines_elem in Hm as (j & line & Hj & Ht & ->).
  simpl in n. subst n. simpl in first, last.
  pose proof (lookup_lt_Some _ _ _ Hj) as Hjlt.
  split.
  - intros Hle. simpl. by destruct (Z.gtb_spec context_lines 0); [lia|].
  - intros Hpos. split_and!; try lia.
    simpl. destruct (Z.gtb_spec context_lines 0); [|lia].
    eexists. split; [done|]. unfold contextLoop.
    set (start := Z.max 0 (Z.of_nat j - context_lines)).
    set (end_ := Z.min (Z.of_nat (length lines) - 1)
                       (Z.of_nat j + context_lines)).
    assert (first = start + 1) as Hfirst by lia.
    assert (last - first + 1 = end_ - start + 1) as -> by lia.
    set (count := Z.to_nat (end_ - start + 1)).
    split.
    + rewrite <- list_fmap_compose. apply list_eq. intros k.
      rewrite !list_lookup_fmap.
      destruct (decide (k < count)%nat).
      * rewrite !lookup_seq_lt by done. simpl. f_equal. lia.
      * by rewrite !lookup_seq_ge by lia.
    + intros e (i & -> & Hi%elem_of_seq)%list_elem_of_fmap. simpl.
      destruct (lookup_lt_is_Some_2 lines i ltac:(lia)) as [l Hl].
      rewrite Hl. simpl. split.
      * by replace (Z.to_nat (Z.of_nat i + 1 - 1)) with i by lia.
      * apply bool_decide_ext. lia.
Qed.

Lemma searchInFile_context_is_clamped_witness :
  let content := join LF [js "foo"; js "b"; js "c"] in
  let lines := split LF content in
  let m :=
    {| sm_line_number := 1;
       sm_content := js "foo";
       sm_context := Some (contextLoop lines 0 100) |} in
  let n := sm_line_number m in
  let first := Z.max 1 (n - 100) in
  let last := Z.min (Z.of_nat (length lines)) (n + 100) in
  (100 <= 0 -> sm_context m = None)
  /\ (0 < 100 ->
      1 <= first /\ first <= n /\ n <= last
      /\ last <= Z.of_nat (length lines)
      /\ exists entries,
           sm_context m = Some entries
           /\ cl_line_number <$> entries
              = (fun k => first + Z.of_nat k)
                  <$> seq 0 (Z.to_nat (last - first + 1))
           /\ forall e, e ∈ entries ->
                lines !! Z.to_nat (cl_line_number e - 1)
                = Some (cl_content e)
                /\ is_match e = bool_decide (cl_line_number e = n)).
Proof.
  eapply (searchInFile_context_is_clamped demo_root demo_RegExp
            (demo_fs (join LF [js "foo"; js "b"; js "c"])) (js "a.txt")
            (js "/root/a.txt") (join LF [js "foo"; js "b"; js "c"])
            (js "foo") true true 100
            (fun line => includes line (js "foo"))).
  - reflexivity.
  - reflexivity.
  - reflexivity.
  - reflexivity.
  - simpl. left.
Defined.

(** X6. Searching one file through [searchAcrossFiles] gives the first
    [max_matches_per_file] matches that [searchInFile] gives for that file,
    context included: for the relative path of a file that exists, with
    room for one file at least, the result has one entry holding those
    matches, or no entry when there is none. *)
Theorem searchAcrossFiles_takes_first_matches
    root RegExp fs file safePath content search_text case_sensitive use_regex
    max_files max_matches_per_file context_lines test :
  _resolveSandboxPath root file = inr safePath ->
  Path.isAbsolute file = false ->
  file <> [] ->
  last file <> Some Path.SEP ->
  fs !! safePath = Some content ->
  searchRegexOf RegExp search_text case_sensitive use_regex = inr test ->
  1 <= max_files ->
  exists single across,
    searchInFile root RegExp file search_text case_sensitive use_regex
      context_lines fs = (inr single, fs)
    /\ searchAcrossFiles root RegExp [file] search_text case_sensitive
         use_regex max_files max_matches_per_file context_lines fs
       = (inr across, fs)
    /\ files_searched across = 1%nat
    /\ let firstMatches :=
         take (Z.to_nat max_matches_per_file) (matches single) in
       results across
       = if decide (firstMatches = []) then []
         else [{| fm_file_path := file;
                  fm_matches := firstMatches;
                  match_count := length firstMatches |}].
Proof.
  intros Hp Habs Hne Hlast Hf Hre Hmax.
  assert (PathExtra.join root file = safePath) as Hjoin.
  { rewrite join_eq_resolve by done.
    unfold _resolveSandboxPath in Hp.
    destruct (negb _); [done | by injection Hp]. }
  eexists _, _. split_and!.
  - by apply (searchInFile_run root RegExp fs file safePath content).
  - unfold searchAcrossFiles. rewrite Hre. reflexivity.
  - simpl. rewrite slice_from_0, length_take by lia. simpl. lia.
  - simpl. rewrite slice_from_0 by lia.
    destruct (Z.to_nat max_files) eqn:E; [lia|]. simpl. rewrite take_nil.
    simpl. rewrite Hjoin, Hf.
    rewrite scanLinesCapped_take by (simpl; lia). rewrite Z.sub_0_r.
    by destruct (take _ _) as [|m0 ms].
Qed.

Lemma searchAcrossFiles_takes_first_matches_witness :
  let fs := demo_fs (join LF [js "foo1"; js "b"; js "foo2"; js "foo3"]) in
  exists single across,
    searchInFile demo_root demo_RegExp (js "a.txt") (js "foo") true true 1 fs
    = (inr single, fs)
    /\ searchAcrossFiles demo_root demo_RegExp [js "a.txt"] (js "foo") true
         true 100 2 1 fs
       = (inr across, fs)
    /\ files_searched across = 1%nat
    /\ let firstMatches := take (Z.to_nat 2) (matches single) in
       results across
       = if decide (firstMatches = []) then []
         else [{| fm_file_path := js "a.txt";
                  fm_matches := firstMatches;
                  match_count := length firstMatches |}].
Proof.
  apply (searchAcrossFiles_takes_first_matches demo_root demo_RegExp
           (demo_fs (join LF [js "foo1"; js "b"; js "foo2"; js "foo3"]))
           (js "a.txt") (js "/root/a.txt")
           (join LF [js "foo1"; js "b"; js "foo2"; js "foo3"]) (js "foo")
           true true 100 2 1 (fun line => includes line (js "foo"))).
  - reflexivity.
  - reflexivity.
  - discriminate.
  - discriminate.
  - reflexivity.
  - reflexivity.
  - lia.
Defined.

(** X7. [searchAcrossFiles] keeps to its caps and writes nothing. The
    files it searches are [files.slice(0, max_files)], the first
    [max_files] of the files it is given when [max_files >= 0]. The entries
    of the result follow the order of the searched files, with at most one
    entry for each; every entry is for a searched file that could be read,
    with at least one match and at most [max_matches_per_file] of them,
    [match_count] being their number. Files that cannot be read are left
    out and raise no error. *)
Theorem searchAcrossFiles_respects_caps
    root RegExp fs files search_text case_sensitive use_regex max_files
    max_matches_per_file context_lines test :
  searchRegexOf RegExp search_text case_sensitive use_regex = inr test ->
  let searched := JSExtra.slice files 0 max_files in
  exists r,
    searchAcrossFiles root RegExp files search_text case_sensitive use_regex
      max_files max_matches_per_file context_lines fs = (inr r, fs)
    /\ (0 <= max_files -> searched = take (Z.to_nat max_files) files)
    /\ files_searched r = length searched
    /\ (files_searched r <= length files)%nat
    /\ files_with_matches r = length (results r)
    /\ (files_with_matches r <= files_searched r)%nat
    /\ fm_file_path <$> results r `sublist_of` searched
    /\ forall entry, entry ∈ results r ->
         fm_file_path entry ∈ searched
         /\ is_Some (fs !! PathExtra.join root (fm_file_path entry))
         /\ match_count entry = length (fm_matches entry)
         /\ (1 <= match_count entry)%nat
         /\ Z.of_nat (match_count entry) <= max_matches_per_file.
Proof.
  intros Hre searched. eexists. split_and!.
  - unfold searchAcrossFiles. rewrite Hre. reflexivity.
  - intros Hmax. by apply slice_from_0.
  - done.
  - simpl. apply length_slice_le.
  - done.
  - simpl. apply length_searchFiles.
  - simpl. apply searchFiles_sublist.
  - simpl. intros entry (Hin & content & Hf & Hm & Hc & Hpos)%searchFiles_elem.
    split_and!; try done.
    rewrite Hc, Hm, length_take. rewrite Hc, Hm, length_take in Hpos. lia.
Qed.

Lemma searchAcrossFiles_respects_caps_witness :
  let fs := demo_fs (join LF [js "foo1"; js "b"; js "foo2"; js "foo3"]) in
  let files := [js "missing.txt"; js "a.txt"; js "a.txt"] in
  let searched := JSExtra.slice files 0 2 in
  exists r,
    searchAcrossFiles demo_root demo_RegExp files (js "foo") true true 2 2 0
      fs = (inr r, fs)
    /\ (0 <= 2 -> searched = take (Z.to_nat 2) files)
    /\ files_searched r = length searched
    /\ (files_searched r <= length files)%nat
    /\ files_with_matches r = length (results r)
    /\ (files_with_matches r <= files_searched r)%nat
    /\ fm_file_path <$> results r `sublist_of` searched
    /\ forall entry, entry ∈ results r ->
         fm_file_path entry ∈ searched
         /\ is_Some (fs !! PathExtra.join demo_root (fm_file_path entry))
         /\ match_count entry = length (fm_matches entry)
         /\ (1 <= match_count entry)%nat
         /\ Z.of_nat (match_count entry) <= 2.
Proof.
  apply (searchAcrossFiles_respects_caps demo_root demo_RegExp
           (demo_fs (join LF [js "foo1"; js "b"; js "foo2"; js "foo3"]))
           [js "missing.txt"; js "a.txt"; js "a.txt"] (js "foo") true true
           2 2 0 (fun line => includes line (js "foo"))).
  reflexivity.
Defined.

End Search.

(** ** Properties of get_code_context *)

Module CodeContext.
Import JS JSFacts.

(** The decimal digits of a number contain no line feed. *)
Lemma numberToString_no_LF (n : nat) : LF ∉ JSExtra.numberToString n.
Proof.
  unfold JSExtra.numberToString.
  induction (Nat.to_uint n) as [|d IH|d IH|d IH|d IH|d IH|d IH|d IH|d IH|d IH
                                |d IH]; simpl;
    [apply not_elem_of_nil | ..];
    (apply not_elem_of_cons; split; [by vm_compute | exact IH]).
Qed.

(** [getCodeContext] on a path inside the sandbox and a file that exists. *)
Lemma getCodeContext_run root fs file_path safePath content line_number
    context_lines :
  _resolveSandboxPath root file_path = inr safePath ->
  fs !! safePath = Some content ->
  getCodeContext root file_path line_number context_lines fs
  = let lines := split LF content in
    if (line_number <? 1) || (line_number >? Z.of_nat (length lines))
    then (inl (LineOutOfRange line_number (length lines)), fs)
    else
      let start := Z.max 1 (line_number - context_lines) in
      let end_ :=
        Z.min (Z.of_nat (length lines)) (line_number + context_lines) in
      (inr {| cc_success := true;
              cc_file_path := file_path;
              center_line := line_number;
              context :=
                join LF
                  ((fun i : nat =>
                      JSExtra.numberToString (i + 1) ++ js ": "
                        ++ default (js "undefined") (lines !! i))
                     <$> seq (Z.to_nat (start - 1))
                             (Z.to_nat (end_ - (start - 1)))) |},
       fs).
Proof.
  intros Hp Hf.
  unfold getCodeContext, tool_bind, run, lift, readFile. rewrite Hp. simpl.
  rewrite Hf. cbv zeta.
  by destruct ((line_number <? 1)
               || (line_number >? Z.of_nat (length (split LF content)))).
Qed.

(** X8. The snippet of [getCodeContext] is clamped to the file. For a line
    number inside the file and [context_lines >= 0], the context is the
    lines from [max 1 (line_number - context_lines)] to
    [min lineCount (line_number + context_lines)], one line of text for
    each, in order: the line's number, a colon and a space, and the text of
    the line. Nothing is written. *)
Theorem getCodeContext_window_is_clamped
    root fs file_path safePath content line_number context_lines :
  _resolveSandboxPath root file_path = inr safePath ->
  fs !! safePath = Some content ->
  let lines := split LF content in
  1 <= line_number <= Z.of_nat (length lines) ->
  0 <= context_lines ->
  let first := Z.max 1 (line_number - context_lines) in
  let last := Z.min (Z.of_nat (length lines)) (line_number + context_lines) in
  exists snippet,
    getCodeContext root file_path line_number context_lines fs
    = (inr {| cc_success := true;
              cc_file_path := file_path;
              center_line := line_number;
              context := join LF snippet |},
       fs)
    /\ split LF (join LF snippet) = snippet
    /\ Z.of_nat (length snippet) = last - first + 1
    /\ forall n line,
         first <= n <= last ->
         lines !! Z.to_nat (n - 1) = Some line ->
         snippet !! Z.to_nat (n - first)
         = Some (JSExtra.numberToString (Z.to_nat n) ++ js ": " ++ line).
Proof.
  intros Hp Hf lines Hln Hctx first last.
  eexists. split_and!.
  - rewrite (getCodeContext_run root fs file_path safePath content)
      by done.
    cbv zeta. fold lines.
    destruct (Z.ltb_spec line_number 1); [lia|].
    destruct (Z.gtb_spec line_number (Z.of_nat (length lines))); [lia|].
    simpl. fold first last. reflexivity.
  - apply split_join.
    + intros H. apply (f_equal length) in H.
      rewrite length_fmap, length_seq in H. simpl in H. lia.
    + apply Forall_forall.
      intros l (i & -> & Hi%elem_of_seq)%list_elem_of_fmap.
      destruct (lookup_lt_is_Some_2 lines i ltac:(lia)) as [line Hline].
      rewrite Hline. simpl.
      rewrite elem_of_app, !elem_of_cons. intros [H|[H|[H|H]]].
      * by apply numberToString_no_LF in H.
      * by vm_compute in H.
      * by vm_compute in H.
      * pose proof (split_no_sep LF content) as Hall.
        rewrite Forall_forall in Hall.
        apply (Hall line); [|done]. by apply list_elem_of_lookup_2 in Hline.
  - rewrite length_fmap, length_seq. lia.
  - intros n line Hn Hline.
    rewrite list_lookup_fmap, lookup_seq_lt by lia. simpl.
    replace (Z.to_nat (first - 1) + Z.to_nat (n - first))%nat
      with (Z.to_nat (n - 1)) by lia.
    rewrite Hline. simpl. do 3 f_equal. lia.
Qed.

Lemma getCodeContext_window_is_clamped_witness :
  let content := join LF [js "a"; js "b"; js "c"] in
  let lines := split LF content in
  let first := Z.max 1 (1 - 100) in
  let last := Z.min (Z.of_nat (length lines)) (1 + 100) in
  exists snippet,
    getCodeContext demo_root (js "a.txt") 1 100 (demo_fs content)
    = (inr {| cc_success := true;
              cc_file_path := js "a.txt";
              center_line := 1;
              context := join LF snippet |},
       demo_fs content)
    /\ split LF (join LF snippet) = snippet
    /\ Z.of_nat (length snippet) = last - first + 1
    /\ forall n line,
         first <= n <= last ->
         lines !! Z.to_nat (n - 1) = Some line ->
         snippet !! Z.to_nat (n - first)
         = Some (JSExtra.numberToString (Z.to_nat n) ++ js ": " ++ line).
Proof.
  apply (getCodeContext_window_is_clamped demo_root
           (demo_fs (join LF [js "a"; js "b"; js "c"])) (js "a.txt")
           (js "/root/a.txt") (join LF [js "a"; js "b"; js "c"]) 1 100).
  - reflexivity.
  - reflexivity.
  - simpl. lia.
  - lia.
Defined.

(** X9. [getCodeContext] rejects a line number outside the file, and takes
    a negative [context_lines] for an empty window: with [line_number < 1]
    or [line_number > lineCount] it throws "out of range"; with a line
    number inside the file and [context_lines < 0] it succeeds with an
    empty context. *)
Theorem getCodeContext_edges
    root fs file_path safePath content line_number context_lines :
  _resolveSandboxPath root file_path = inr safePath ->
  fs !! safePath = Some content ->
  let lineCount := length (split LF content) in
  (line_number < 1 \/ Z.of_nat lineCount < line_number ->
   getCodeContext root file_path line_number context_lines fs
   = (inl (LineOutOfRange line_number lineCount), fs))
  /\ (1 <= line_number <= Z.of_nat lineCount -> context_lines < 0 ->
      getCodeContext root file_path line_number context_lines fs
      = (inr {| cc_success := true;
                cc_file_path := file_path;
                center_line := line_number;
                context := [] |},
         fs)).
Proof.
  intros Hp Hf lineCount.
  rewrite (getCodeContext_run root fs file_path safePath content) by done.
  cbv zeta. fold lineCount. split.
  - intros Hout.
    destruct (Z.ltb_spec line_number 1); [done|].
    destruct (Z.gtb_spec line_number (Z.of_nat lineCount)); [done | lia].
  - intros Hin Hneg.
    destruct (Z.ltb_spec line_number 1); [lia|].
    destruct (Z.gtb_spec line_number (Z.of_nat lineCount)); [lia|].
    simpl.
    replace (Z.to_nat (Z.min (Z.of_nat lineCount)
                         (line_number + context_lines)
                       - (Z.max 1 (line_number - context_lines) - 1)))
      with 0%nat by lia.
    done.
Qed.

Lemma getCodeContext_edges_witness :
  (4 < 1 \/ Z.of_nat (length (split LF (js "abc"))) < 4 ->
   getCodeContext demo_root (js "a.txt") 4 (-2) (demo_fs (js "abc"))
   = (inl (LineOutOfRange 4 (length (split LF (js "abc")))),
      demo_fs (js "abc")))
  /\ (1 <= 4 <= Z.of_nat (length (split LF (js "abc"))) -> -2 < 0 ->
      getCodeContext demo_root (js "a.txt") 4 (-2) (demo_fs (js "abc"))
      = (inr {| cc_success := true;
                cc_file_path := js "a.txt";
                center_line := 4;
                context := [] |},
         demo_fs (js "abc"))).
Proof.
  apply (getCodeContext_edges demo_root (demo_fs (js "abc")) (js "a.txt")
           (js "/root/a.txt") (js "abc") 4 (-2)).
  - reflexivity.
  - reflexivity.
Defined.

End CodeContext.

(** ** Properties of the whole-file operations *)

Module FileOps.
Import JS JSFacts.

(** The number of pieces of a split is one more than the number of
    separators. *)
Lemma length_split_from sep cur s :
  length (split_from sep cur s) = S (length (filter (fun c => c = sep) s)).
Proof.
  revert cur. induction s as [|c s IH]; intros cur; simpl; [done|].
  rewrite filter_cons. case_decide; simpl; by rewrite IH.
Qed.

Lemma createOrOverwriteFile_run root fs file_path safePath content :
  _resolveSandboxPath root file_path = inr safePath ->
  createOrOverwriteFile root file_path content fs
  = (inr {| cr_success := true;
            cr_file_path := file_path;
            bytes_written := JSExtra.byteLength content |},
     <[safePath := content]> fs).
Proof.
  intros Hp. unfold createOrOverwriteFile, bind, lift. by rewrite Hp.
Qed.

Lemma appendPrependContent_run root fs file_path safePath existing content
    position create_if_missing :
  _resolveSandboxPath root file_path = inr safePath ->
  readsAs fs safePath create_if_missing existing ->
  appendPrependContent root file_path content position create_if_missing fs
  = (inr {| ap_success := true;
            ap_file_path := file_path;
            ap_position := position;
            bytes_added := JSExtra.byteLength content |},
     <[safePath :=
         if bool_decide (position = js "prepend") then content ++ existing
         else existing ++ content]> fs).
Proof.
  intros Hp Hr.
  unfold appendPrependContent, bind, lift, try_catch, readFile.
  rewrite Hp. simpl.
  by destruct Hr as [Hf|(Hf & -> & ->)]; rewrite Hf.
Qed.

(** X10. Overwriting a file and reading it back: on a path that holds a
    file, after [createOrOverwriteFile], [readFileContent] of the same path
    returns the content that was written, a size equal to the reported
    [bytes_written], and a line count of one more than the number of line
    feeds in the content; every other file is as it was. *)
Theorem overwrite_then_read_round_trip
    root fs file_path safePath previous content :
  _resolveSandboxPath root file_path = inr safePath ->
  fs !! safePath = Some previous ->
  exists created fs1 read,
    createOrOverwriteFile root file_path content fs = (inr created, fs1)
    /\ readFileContent root file_path fs1 = (inr read, fs1)
    /\ rf_content read = content
    /\ size_bytes read = bytes_written created
    /\ rf_lines read = S (length (filter (fun c => c = LF) content))
    /\ forall other, other <> safePath -> fs1 !! other = fs !! other.
Proof.
  intros Hp _. eexists _, _, _. split_and!.
  - by apply createOrOverwriteFile_run.
  - unfold readFileContent, bind, lift, readFile. rewrite Hp. simpl.
    by rewrite lookup_insert_eq.
  - done.
  - done.
  - simpl. apply length_split_from.
  - intros other Hne. by rewrite lookup_insert_ne.
Qed.

Lemma overwrite_then_read_round_trip_witness :
  exists created fs1 read,
    createOrOverwriteFile demo_root (js "a.txt") (join LF [js "x"; js "y"])
      (demo_fs (js "abc")) = (inr created, fs1)
    /\ readFileContent demo_root (js "a.txt") fs1 = (inr read, fs1)
    /\ rf_content read = join LF [js "x"; js "y"]
    /\ size_bytes read = bytes_written created
    /\ rf_lines read
       = S (length (filter (fun c => c = LF) (join LF [js "x"; js "y"])))
    /\ forall other, other <> js "/root/a.txt" ->
                     fs1 !! other = demo_fs (js "abc") !! other.
Proof.
  apply (overwrite_then_read_round_trip demo_root (demo_fs (js "abc"))
           (js "a.txt") (js "/root/a.txt") (js "abc")
           (join LF [js "x"; js "y"])).
  - reflexivity.
  - reflexivity.
Defined.

(** X11. Appending and prepending compose. On a file that exists and holds
    [existing], any [position] other than "prepend" appends. Two appends
    write what one append of the two contents writes; two prepends write
    what one prepend of [b ++ a] writes; and prepending [a] and appending
    [b] give [a ++ existing ++ b] in either order. *)
Theorem append_prepend_compose
    root fs file_path safePath existing a b position create_if_missing :
  _resolveSandboxPath root file_path = inr safePath ->
  fs !! safePath = Some existing ->
  position <> js "prepend" ->
  let op content pos fs' :=
    (appendPrependContent root file_path content pos create_if_missing
       fs').2 in
  op b position (op a position fs) = op (a ++ b) position fs
  /\ op b (js "prepend") (op a (js "prepend") fs)
     = op (b ++ a) (js "prepend") fs
  /\ op b position (op a (js "prepend") fs)
     = <[safePath := a ++ existing ++ b]> fs
  /\ op a (js "prepend") (op b position fs)
     = <[safePath := a ++ existing ++ b]> fs.
Proof.
  intros Hp Hf Hpos op. subst op. cbv beta.
  assert (forall content pos,
            (appendPrependContent root file_path content pos
               create_if_missing fs).2
            = <[safePath :=
                  if bool_decide (pos = js "prepend") then content ++ existing
                  else existing ++ content]> fs) as Hfirst.
  { intros content pos.
    by rewrite (appendPrependContent_run root fs file_path safePath existing)
      by (done || by left). }
  assert (forall content pos current,
            (appendPrependContent root file_path content pos
               create_if_missing (<[safePath := current]> fs)).2
            = <[safePath :=
                  if bool_decide (pos = js "prepend") then content ++ current
                  else current ++ content]> fs) as Hsecond.
  { intros content pos current.
    rewrite (appendPrependContent_run root _ file_path safePath current)
      by (done || (left; apply lookup_insert_eq)).
    simpl. by rewrite insert_insert_eq. }
  rewrite !Hfirst, !Hsecond.
  rewrite (bool_decide_eq_false_2 (position = js "prepend")) by done.
  rewrite (bool_decide_eq_true_2 (js "prepend" = js "prepend")) by done.
  by rewrite <- !app_assoc.
Qed.

Lemma append_prepend_compose_witness :
  let op content pos fs' :=
    (appendPrependContent demo_root (js "a.txt") content pos false fs').2 in
  let fs := demo_fs (js "abc") in
  op (js "Y") (js "append") (op (js "X") (js "append") fs)
  = op (js "X" ++ js "Y") (js "append") fs
  /\ op (js "Y") (js "prepend") (op (js "X") (js "prepend") fs)
     = op (js "Y" ++ js "X") (js "prepend") fs
  /\ op (js "Y") (js "append") (op (js "X") (js "prepend") fs)
     = <[js "/root/a.txt" := js "X" ++ js "abc" ++ js "Y"]> fs
  /\ op (js "X") (js "prepend") (op (js "Y") (js "append") fs)
     = <[js "/root/a.txt" := js "X" ++ js "abc" ++ js "Y"]> fs.
Proof.
  apply (append_prepend_compose demo_root (demo_fs (js "abc")) (js "a.txt")
           (js "/root/a.txt") (js "abc") (js "X") (js "Y") (js "append")
           false).
  - reflexivity.
  - reflexivity.
  - discriminate.
Defined.

(** X13. Moving a file onto another file replaces it. When the source and
    the destination are both regular files and both paths pass the
    sandbox check, [moveOrRenameFile] succeeds without any check of the
    destination: the destination then holds the content of the source, the
    source no longer exists when it is another path than the destination,
    and every other file is as it was. *)
Theorem move_replaces_existing_destination
    root fs source_path destination_path safeSrc safeDst content replaced :
  _resolveSandboxPath root source_path = inr safeSrc ->
  _resolveSandboxPath root destination_path = inr safeDst ->
  fs !! safeSrc = Some content ->
  fs !! safeDst = Some replaced ->
  exists fs1,
    moveOrRenameFile root source_path destination_path fs
    = (inr (source_path, destination_path), fs1)
    /\ fs1 !! safeDst = Some content
    /\ (safeSrc <> safeDst -> fs1 !! safeSrc = None)
    /\ (safeSrc = safeDst -> fs1 = fs)
    /\ (forall other, other <> safeSrc -> other <> safeDst ->
                      fs1 !! other = fs !! other).
Proof.
  intros Hps Hpd Hsrc Hdst.
  exists (<[safeDst := content]> (delete safeSrc fs)).
  split_and!.
  - unfold moveOrRenameFile, bind, lift, rename. rewrite Hps, Hpd. simpl.
    by rewrite Hsrc.
  - apply lookup_insert_eq.
  - intros Hne. by rewrite lookup_insert_ne, lookup_delete_eq.
  - intros <-. by rewrite insert_delete_eq, insert_id.
  - intros other H1 H2. by rewrite lookup_insert_ne, lookup_delete_ne.
Qed.

Lemma move_replaces_existing_destination_witness :
  let fs := <[js "/root/b.txt" := js "old"]> (demo_fs (js "abc")) in
  exists fs1,
    moveOrRenameFile demo_root (js "a.txt") (js "b.txt") fs
    = (inr (js "a.txt", js "b.txt"), fs1)
    /\ fs1 !! js "/root/b.txt" = Some (js "abc")
    /\ (js "/root/a.txt" <> js "/root/b.txt" ->
        fs1 !! js "/root/a.txt" = None)
    /\ (js "/root/a.txt" = js "/root/b.txt" -> fs1 = fs)
    /\ (forall other, other <> js "/root/a.txt" ->
                      other <> js "/root/b.txt" ->
                      fs1 !! other = fs !! other).
Proof.
  apply (move_replaces_existing_destination demo_root
           (<[js "/root/b.txt" := js "old"]> (demo_fs (js "abc")))
           (js "a.txt") (js "b.txt") (js "/root/a.txt") (js "/root/b.txt")
           (js "abc") (js "old")).
  - reflexivity.
  - reflexivity.
  - reflexivity.
  - reflexivity.
Defined.

(** X14. Deleting a file and writing it again. [deleteFile] on a path that
    holds a file removes that file and no other; reading the path then
    throws ENOENT; and [createOrOverwriteFile] of the same path with the
    content the file had gives the file system back. *)
Theorem delete_then_create_restores root fs file_path safePath content :
  _resolveSandboxPath root file_path = inr safePath ->
  fs !! safePath = Some content ->
  exists fs1,
    deleteFile root file_path fs = (inr file_path, fs1)
    /\ fs1 !! safePath = None
    /\ (forall other, other <> safePath -> fs1 !! other = fs !! other)
    /\ readFileContent root file_path fs1 = (inl (ENOENT safePath), fs1)
    /\ (createOrOverwriteFile root file_path content fs1).2 = fs.
Proof.
  intros Hp Hf. exists (delete safePath fs). split_and!.
  - unfold deleteFile, bind, lift, unlink. rewrite Hp. simpl.
    by rewrite Hf.
  - apply lookup_delete_eq.
  - intros other Hne. by rewrite lookup_delete_ne.
  - unfold readFileContent, bind, lift, readFile. rewrite Hp. simpl.
    by rewrite lookup_delete_eq.
  - rewrite (createOrOverwriteFile_run root _ file_path safePath) by done.
    simpl. by rewrite insert_delete_eq, insert_id.
Qed.

Lemma delete_then_create_restores_witness :
  exists fs1,
    deleteFile demo_root (js "a.txt") (demo_fs (js "abc"))
    = (inr (js "a.txt"), fs1)
    /\ fs1 !! js "/root/a.txt" = None
    /\ (forall other, other <> js "/root/a.txt" ->
                      fs1 !! other = demo_fs (js "abc") !! other)
    /\ readFileContent demo_root (js "a.txt") fs1
       = (inl (ENOENT (js "/root/a.txt")), fs1)
    /\ (createOrOverwriteFile demo_root (js "a.txt") (js "abc") fs1).2
       = demo_fs (js "abc").
Proof.
  apply (delete_then_create_restores demo_root (demo_fs (js "abc"))
           (js "a.txt") (js "/root/a.txt") (js "abc")).
  - reflexivity.
  - reflexivity.
Defined.

End FileOps.

(** ** Properties of the shell command check *)

Module Shell.
Import JS JSFacts SplitFacts.

Lemma trimStart_app (x y : str) :
  trimStart (x ++ y)
  = match trimStart x with [] => trimStart y | _ => trimStart x ++ y end.
Proof.
  induction x as [|c x IH]; simpl; [done|].
  by destruct (isWhiteSpace c).
Qed.

Lemma trimStart_no_space (s : str) :
  Forall (fun c => isWhiteSpace c = false) s -> trimStart s = s.
Proof.
  destruct 1 as [|c s Hc _]; simpl; [done | by rewrite Hc].
Qed.

Lemma trimStart_all_space (s : str) :
  Forall (fun c => isWhiteSpace c = true) s -> trimStart s = [].
Proof.
  induction 1 as [|c s Hc _ IH]; simpl; [done | by rewrite Hc].
Qed.

(** Trimming the end leaves a word without white space in place. *)
Lemma trimEnd_word_app (w tail : str) :
  Forall (fun c => isWhiteSpace c = false) w ->
  trimEnd (w ++ tail) = w ++ trimEnd tail.
Proof.
  intros Hw. unfold trimEnd. rewrite rev_app_distr, trimStart_app.
  assert (trimStart (rev w) = rev w) as Hrev.
  { apply trimStart_no_space. apply Forall_forall. intros c Hc.
    rewrite Forall_forall in Hw. apply Hw.
    by rewrite list_elem_of_In, <- in_rev, <- list_elem_of_In in Hc. }
  destruct (trimStart (rev tail)) eqn:E.
  - rewrite Hrev, rev_involutive. simpl. by rewrite app_nil_r.
  - by rewrite rev_app_distr, rev_involutive.
Qed.

(** What is left of a tail that starts with white space, after trimming
    its end, is empty or starts with that white space. *)
Lemma trimEnd_space_cons (c : ascii) (tail : str) :
  isWhiteSpace c = true ->
  trimEnd (c :: tail) = [] \/ exists tail', trimEnd (c :: tail) = c :: tail'.
Proof.
  intros Hc. unfold trimEnd. simpl rev. rewrite trimStart_app.
  destruct (trimStart (rev tail)) eqn:E.
  - left. simpl. by rewrite Hc.
  - right. rewrite rev_app_distr. simpl. eauto.
Qed.

Lemma firstWord_word_app (w tail : str) :
  Forall (fun c => isWhiteSpace c = false) w ->
  tail = [] \/ (exists c tail', tail = c :: tail' /\ isWhiteSpace c = true) ->
  JSExtra.firstWord (w ++ tail) = w.
Proof.
  intros Hw Htail. induction Hw as [|c w Hc _ IH]; simpl.
  - destruct Htail as [->|(c & tail' & -> & Hc)]; simpl; [done|].
    by rewrite Hc.
  - by rewrite Hc, IH.
Qed.

(** The base name of a path that ends in a name without separator is that
    name, whatever directory comes before it. *)
Lemma basename_dir_name (dir name : str) :
  dir = [] \/ (exists d, dir = d ++ [Path.SEP]) ->
  name <> [] ->
  Path.SEP ∉ name ->
  PathExtra.basename (dir ++ name) = name.
Proof.
  intros Hdir Hne Hsep. unfold PathExtra.basename.
  assert (split Path.SEP name = [name]) as Hname.
  { apply (split_join Path.SEP [name]); [done | by constructor]. }
  destruct Hdir as [->|[d ->]].
  - simpl. rewrite Hname. rewrite filter_cons, filter_nil.
    by case_decide.
  - rewrite <- app_assoc. simpl. unfold split at 1.
    rewrite split_from_app_sep, Hname, filter_app.
    rewrite (filter_cons _ name), filter_nil.
    case_decide; [|done]. by rewrite last_snoc.
Qed.

(** The names on the whitelist are not empty and contain neither white
    space nor a path separator. *)
Lemma ALLOWED_COMMANDS_plain (name : str) :
  name ∈ ALLOWED_COMMANDS ->
  name <> [] /\ Forall (fun c => isWhiteSpace c = false) name
  /\ Path.SEP ∉ name.
Proof.
  assert (Forall (fun n => n <> []
                           /\ Forall (fun c => isWhiteSpace c = false) n
                           /\ Path.SEP ∉ n) ALLOWED_COMMANDS) as Hall.
  { apply (bool_decide_unpack _). by vm_compute. }
  rewrite Forall_forall in Hall. apply Hall.
Qed.

(** X15. The whitelist is applied to the first word only, and only to its
    last path component. In every shell mode, a command made of an allowed
    name, with any directory in front of it and followed by nothing or by
    white space and any further text, is accepted. *)
Theorem allowed_first_word_is_accepted mode dir name tail :
  name ∈ ALLOWED_COMMANDS ->
  Forall (fun c => isWhiteSpace c = false) dir ->
  dir = [] \/ (exists d, dir = d ++ [Path.SEP]) ->
  tail = [] \/ (exists c tail', tail = c :: tail' /\ isWhiteSpace c = true) ->
  _validateShellCommand mode (dir ++ name ++ tail) = inr true.
Proof.
  intros Hname Hdir Hdirform Htail.
  destruct (ALLOWED_COMMANDS_plain name Hname) as (Hne & Hplain & Hsep).
  unfold _validateShellCommand. case_bool_decide; [done|].
  assert (Forall (fun c => isWhiteSpace c = false) (dir ++ name)) as Hw
    by (by apply Forall_app).
  assert (JSExtra.firstWord (trim (dir ++ name ++ tail)) = dir ++ name)
    as ->.
  { unfold trim. rewrite app_assoc.
    assert (trimStart ((dir ++ name) ++ tail) = (dir ++ name) ++ tail) as ->.
    { rewrite trimStart_app, trimStart_no_space by done.
      destruct (dir ++ name) eqn:E; [|done].
      apply app_eq_nil in E as [_ ?]. done. }
    rewrite trimEnd_word_app by done.
    apply firstWord_word_app; [done|].
    destruct Htail as [->|(c & tail' & -> & Hc)]; [by left|].
    destruct (trimEnd_space_cons c tail' Hc) as [->|[t ->]];
      [by left | right; eauto]. }
  rewrite basename_dir_name by done.
  by rewrite bool_decide_eq_true_2.
Qed.

Lemma allowed_first_word_is_accepted_witness :
  _validateShellCommand (js "restricted")
    (js "/tmp/x/" ++ js "npm" ++ js " install && rm -rf /")
  = inr true.
Proof.
  apply (allowed_first_word_is_accepted (js "restricted") (js "/tmp/x/")
           (js "npm") (js " install && rm -rf /")).
  - unfold ALLOWED_COMMANDS. left.
  - apply (bool_decide_unpack _). by vm_compute.
  - right. by exists (js "/tmp/x").
  - right. by exists " "%char, (js "install && rm -rf /").
Defined.

(** X16. Outside the unsafe mode a command of white space only, the empty
    command included, is rejected: its command name is the empty string,
    which is not on the whitelist. In the unsafe mode it is accepted like
    every other command. *)
Theorem blank_command_is_rejected mode command :
  Forall (fun c => isWhiteSpace c = true) command ->
  _validateShellCommand mode command
  = if bool_decide (mode = js "unsafe") then inr true
    else inl (CommandNotAllowed []).
Proof.
  intros Hblank. unfold _validateShellCommand.
  case_bool_decide; [done|].
  assert (trim command = []) as ->.
  { unfold trim. by rewrite trimStart_all_space. }
  reflexivity.
Qed.

Lemma blank_command_is_rejected_witness :
  _validateShellCommand (js "restricted") (js "   ")
  = if bool_decide (js "restricted" = js "unsafe") then inr true
    else inl (CommandNotAllowed []).
Proof.
  apply (blank_command_is_rejected (js "restricted") (js "   ")).
  apply (bool_decide_unpack _). by vm_compute.
Defined.

End Shell.

(** ** Properties of the pattern anchors of insert_lines *)

Module Anchors.
Import JS JSFacts.

(** The loop of the pattern branch stops at the line before which the
    pattern has been seen [match_occurrence - 1] times. *)
Lemma findOccurrence_at pattern occ lines start count i line :
  lines !! i = Some line ->
  includes line pattern = true ->
  count
  + Z.of_nat (length (filter (fun l => includes l pattern = true)
                        (take i lines))) + 1 = occ ->
  findOccurrence pattern occ lines start count = Some ((start + i)%nat, line).
Proof.
  revert start count i.
  induction lines as [|l0 lines IH]; intros start count i Hi Hinc Hocc;
    [done|].
  destruct i as [|i]; simpl in *.
  - injection Hi as ->. rewrite Hinc.
    destruct (Z.eqb_spec (count + 1) occ); [|lia].
    do 2 f_equal. lia.
  - rewrite filter_cons in Hocc.
    destruct (includes l0 pattern) eqn:E.
    + rewrite decide_True in Hocc by done. simpl in Hocc.
      destruct (Z.eqb_spec (count + 1) occ); [lia|].
      rewrite (IH (S start) (count + 1) i) by (done || lia).
      do 2 f_equal. lia.
    + rewrite decide_False in Hocc by done.
      rewrite (IH (S start) count i) by (done || lia).
      do 2 f_equal. lia.
Qed.

Lemma findOccurrence_too_few pattern occ lines start count :
  occ <= count
  \/ count + Z.of_nat (length (filter (fun l => includes l pattern = true)
                                lines)) < occ ->
  findOccurrence pattern occ lines start count = None.
Proof.
  revert start count.
  induction lines as [|l0 lines IH]; intros start count Hocc; [done|].
  simpl. rewrite filter_cons in Hocc.
  destruct (includes l0 pattern) eqn:E.
  - rewrite decide_True in Hocc by done. simpl in Hocc.
    destruct (Z.eqb_spec (count + 1) occ); [lia|].
    apply IH. lia.
  - rewrite decide_False in Hocc by done. apply IH. lia.
Qed.

(** X17. Occurrence selection of [after_pattern] and [before_pattern]. The
    anchor is the line that includes the pattern and has exactly
    [match_occurrence - 1] lines including it before itself; with
    [after_pattern] the payload, indented after this line, is put right
    after it, with [before_pattern] right before it, and the call reports
    the index plus one. When fewer than [match_occurrence] lines include
    the pattern, or [match_occurrence] is below 1, the call throws
    "Pattern not found" and writes nothing. *)
Theorem pattern_anchor_selects_occurrence
    root fs file_path safePath fileContent content position match_occurrence
    create_if_missing preserve_indentation pattern (isAfter : bool) :
  _resolveSandboxPath root file_path = inr safePath ->
  readsAs fs safePath create_if_missing fileContent ->
  line_number position = None ->
  pattern <> [] ->
  (if isAfter then after_pattern position = Some pattern
   else optTruthy (after_pattern position) = false
        /\ before_pattern position = Some pattern) ->
  let lines := split LF fileContent in
  let hits := filter (fun l => includes l pattern = true) in
  (forall i line,
      lines !! i = Some line ->
      includes line pattern = true ->
      Z.of_nat (length (hits (take i lines))) + 1 = match_occurrence ->
      let at_ := if isAfter then S i else i in
      let payload :=
        split LF (applyIndentation content preserve_indentation line) in
      insertLines root file_path content position match_occurrence
        create_if_missing preserve_indentation fs
      = (inr {| il_success := true;
                il_file_path := file_path;
                inserted_at_line := Z.of_nat at_ + 1;
                lines_inserted := length payload |},
         <[safePath :=
             join LF (take at_ lines ++ payload ++ drop at_ lines)]> fs))
  /\ (match_occurrence < 1
      \/ Z.of_nat (length (hits lines)) < match_occurrence ->
      insertLines root file_path content position match_occurrence
        create_if_missing preserve_indentation fs
      = (inl (PatternNotFound pattern), fs)).
Proof.
  intros Hp Hr Hln Hne Hpat lines hits.
  pose proof (insertLines_run root fs file_path safePath fileContent content
                position match_occurrence create_if_missing
                preserve_indentation Hp Hr) as Hrun.
  fold lines in Hrun.
  assert (truthy pattern = true) as Htruthy by (by destruct pattern).
  assert (resolvePosition lines position match_occurrence
          = match findOccurrence pattern match_occurrence lines 0 0 with
            | Some (i, line) =>
                inr (if isAfter then Z.of_nat i + 1 else Z.of_nat i, line)
            | None => inl (PatternNotFound pattern)
            end) as Hres.
  { unfold resolvePosition. rewrite Hln.
    destruct isAfter.
    - rewrite Hpat. simpl. by rewrite Htruthy.
    - destruct Hpat as [Ha Hb]. rewrite Ha, Hb. simpl. by rewrite Htruthy. }
  split.
  - intros i line Hi Hinc Hocc at_ payload.
    rewrite (findOccurrence_at pattern match_occurrence lines 0 0 i line)
      in Hres by (done || (subst hits; simpl in *; lia)).
    rewrite Hres in Hrun. rewrite Hrun. cbv zeta. fold payload.
    pose proof (lookup_lt_Some _ _ _ Hi) as Hlt.
    rewrite splice_insert. cbv zeta. subst at_.
    destruct isAfter; simpl.
    + destruct (Z.ltb_spec (Z.of_nat i + 1) 0); [lia|].
      rewrite Z.min_l by lia.
      replace (Z.to_nat (Z.of_nat i + 1)) with (S i) by lia.
      do 3 f_equal. lia.
    + destruct (Z.ltb_spec (Z.of_nat i) 0); [lia|].
      rewrite Z.min_l by lia. by rewrite Nat2Z.id.
  - intros Hfew.
    rewrite (findOccurrence_too_few pattern match_occurrence lines 0 0)
      in Hres by (subst hits; simpl in *; lia).
    by rewrite Hres in Hrun.
Qed.

Lemma pattern_anchor_selects_occurrence_witness :
  let fileContent := join LF [js "  foo"; js "bar"; js "    foo"] in
  let lines := split LF fileContent in
  let payload :=
    split LF (applyIndentation (join LF [js "x"; js "y"]) true
                (js "    foo")) in
  insertLines demo_root (js "a.txt") (join LF [js "x"; js "y"])
    (afterPattern (js "foo")) 2 false true (demo_fs fileContent)
  = (inr {| il_success := true;
            il_file_path := js "a.txt";
            inserted_at_line := Z.of_nat 3 + 1;
            lines_inserted := length payload |},
     <[js "/root/a.txt" :=
         join LF (take 3 lines ++ payload ++ drop 3 lines)]>
       (demo_fs fileContent))
  /\ insertLines demo_root (js "a.txt") (join LF [js "x"; js "y"])
       (afterPattern (js "foo")) 3 false true (demo_fs fileContent)
     = (inl (PatternNotFound (js "foo")), demo_fs fileContent).
Proof.
  split.
  - apply (proj1 (pattern_anchor_selects_occurrence demo_root
                    (demo_fs (join LF [js "  foo"; js "bar"; js "    foo"]))
                    (js "a.txt") (js "/root/a.txt")
                    (join LF [js "  foo"; js "bar"; js "    foo"])
                    (join LF [js "x"; js "y"]) (afterPattern (js "foo")) 2
                    false true (js "foo") true
                    eq_refl (or_introl eq_refl) eq_refl
                    ltac:(discriminate) eq_refl) 2%nat (js "    foo")).
    + reflexivity.
    + reflexivity.
    + reflexivity.
  - apply (proj2 (pattern_anchor_selects_occurrence demo_root
                    (demo_fs (join LF [js "  foo"; js "bar"; js "    foo"]))
                    (js "a.txt") (js "/root/a.txt")
                    (join LF [js "  foo"; js "bar"; js "    foo"])
                    (join LF [js "x"; js "y"]) (afterPattern (js "foo")) 3
                    false true (js "foo") true
                    eq_refl (or_introl eq_refl) eq_refl
                    ltac:(discriminate) eq_refl)).
    right. vm_compute. reflexivity.
Defined.

End Anchors.

(** ** Paths that stay inside the sandbox *)

Module SandboxPaths.
Import JS JSFacts SplitFacts.

Lemma filter_all {A} (P : A -> Prop) `{!forall x, Decision (P x)} (l : list A) :
  Forall P l -> filter P l = l.
Proof.
  induction 1 as [|x l Hx _ IH]; [done|].
  rewrite filter_cons, decide_True by done. by rewrite IH.
Qed.

(** Without [..], normalizing drops the empty segments and the [.]
    segments and keeps the others in order. *)
Lemma normalizeSegments_no_dotdot (acc segs : list str) :
  Forall (fun seg => seg <> js "..") segs ->
  Path.normalizeSegments acc segs
  = rev acc ++ filter (fun seg => seg <> [] /\ seg <> js ".") segs.
Proof.
  intros Hsegs. revert acc.
  induction Hsegs as [|seg segs Hseg _ IH]; intros acc; simpl.
  - by rewrite app_nil_r.
  - rewrite filter_cons.
    repeat case_decide; subst; rewrite ?IH; simpl; rewrite <- ?app_assoc;
      try reflexivity; exfalso; intuition congruence.
Qed.

Lemma join_app_prefix sep (a b : list str) :
  exists rest, join sep (a ++ b) = join sep a ++ rest.
Proof.
  induction a as [|x a IH].
  - by exists (join sep b).
  - destruct IH as [rest IH]. destruct a as [|y a].
    + destruct b as [|z b].
      * exists []. simpl. by rewrite app_nil_r.
      * exists (sep :: join sep (z :: b)). done.
    + exists rest. change ((x :: y :: a) ++ b) with (x :: (y :: a) ++ b).
      rewrite !join_cons by done. rewrite IH. by rewrite <- app_assoc.
Qed.

(** The pieces of a normalized absolute path. *)
Lemma split_normalized (segs : list str) :
  Forall (fun seg => Path.SEP ∉ seg) segs ->
  split Path.SEP (Path.SEP :: join Path.SEP segs)
  = [] :: match segs with [] => [[]] | _ => segs end.
Proof.
  intros Hsegs.
  change (Path.SEP :: join Path.SEP segs)
    with ([] ++ Path.SEP :: join Path.SEP segs).
  rewrite split_app_sep.
  destruct segs as [|seg segs]; [done|].
  by rewrite split_join.
Qed.

Lemma segments_normalized (segs : list str) :
  Forall (fun seg => seg <> [] /\ Path.SEP ∉ seg) segs ->
  segments (Path.SEP :: join Path.SEP segs) = segs.
Proof.
  intros Hsegs. unfold segments.
  rewrite split_normalized
    by (eapply Forall_impl; [exact Hsegs | by intros s [_ ?]]).
  rewrite filter_cons, decide_False by (intros H; by apply H).
  destruct segs as [|seg segs].
  - by rewrite filter_cons, decide_False by (intros H; by apply H).
  - apply filter_all. eapply Forall_impl; [exact Hsegs | by intros s [? _]].
Qed.

(** X18. A relative path without [..] is never blocked and resolves to a
    path inside the sandbox. For a sandbox root in normal form and a
    relative path of which no segment is [..], [_resolveSandboxPath]
    returns the root followed by the segments of the path, its empty and
    [.] segments dropped; this path is the root or lies below it. *)
Theorem relative_path_without_dotdot_stays_inside rootSegs userPath :
  Forall plainSegment rootSegs ->
  Path.isAbsolute userPath = false ->
  Forall (fun seg => seg <> js "..") (split Path.SEP userPath) ->
  let root := Path.SEP :: join Path.SEP rootSegs in
  let below :=
    filter (fun seg => seg <> [] /\ seg <> js ".")
           (split Path.SEP userPath) in
  _resolveSandboxPath root userPath
  = inr (Path.SEP :: join Path.SEP (rootSegs ++ below))
  /\ isInside root (Path.SEP :: join Path.SEP (rootSegs ++ below)) = true.
Proof.
  intros Hroot Habs Hpath root below.
  assert (Forall (fun seg => Path.SEP ∉ seg) rootSegs) as HrootSep
    by (eapply Forall_impl; [exact Hroot | by intros s (_ & _ & _ & ?)]).
  assert (Forall (fun seg => seg <> [] /\ seg <> js ".") rootSegs)
    as HrootKept
    by (eapply Forall_impl; [exact Hroot | by intros s (? & ? & _)]).
  assert (Forall (fun seg => seg <> js "..") rootSegs) as HrootNoUp
    by (eapply Forall_impl; [exact Hroot | by intros s (_ & _ & ? & _)]).
  assert (filter (fun seg => seg <> [] /\ seg <> js ".")
            (split Path.SEP root) = rootSegs) as HsplitRoot.
  { subst root. rewrite split_normalized by done.
    rewrite filter_cons, decide_False by (intros [H _]; by apply H).
    destruct rootSegs as [|seg segs].
    - by rewrite filter_cons, decide_False by (intros [H _]; by apply H).
    - by apply filter_all. }
  assert (Forall (fun seg => seg <> js "..") (split Path.SEP root))
    as HrootSplitNoUp.
  { subst root. rewrite split_normalized by done.
    constructor; [done|]. destruct rootSegs; [|done].
    by constructor. }
  assert (Path.resolve root userPath
          = Path.SEP :: join Path.SEP (rootSegs ++ below)) as Hres.
  { unfold Path.resolve. rewrite Habs. f_equal. f_equal.
    destruct userPath as [|c rest].
    - rewrite normalizeSegments_no_dotdot by done. simpl rev.
      rewrite app_nil_l, HsplitRoot. subst below.
      change (split Path.SEP []) with [@nil ascii].
      rewrite filter_cons, decide_False by (intros [H _]; by apply H).
      by rewrite filter_nil, app_nil_r.
    - rewrite split_app_sep.
      rewrite normalizeSegments_no_dotdot by (by apply Forall_app).
      simpl rev. by rewrite app_nil_l, filter_app, HsplitRoot. }
  split.
  - unfold _resolveSandboxPath. rewrite Hres.
    assert (startsWith (Path.SEP :: join Path.SEP (rootSegs ++ below)) root
            = true) as ->; [|done].
    apply startsWith_app.
    destruct (join_app_prefix Path.SEP rootSegs below) as [rest Hrest].
    exists rest. subst root. by rewrite Hrest.
  - unfold isInside. apply bool_decide_eq_true.
    subst root. rewrite !segments_normalized.
    + by exists below.
    + apply Forall_app. split.
      * eapply Forall_impl; [exact Hroot | by intros s (? & _ & _ & ?)].
      * subst below. apply Forall_forall.
        intros seg [[Hne _] Hin]%list_elem_of_filter. split; [done|].
        pose proof (split_no_sep Path.SEP userPath) as Hall.
        rewrite Forall_forall in Hall. by apply Hall.
    + eapply Forall_impl; [exact Hroot | by intros s (? & _ & _ & ?)].
Qed.

Lemma relative_path_without_dotdot_stays_inside_witness :
  let root := Path.SEP :: join Path.SEP [js "srv"; js "project"] in
  let below :=
    filter (fun seg => seg <> [] /\ seg <> js ".")
           (split Path.SEP (js "./src//app.js")) in
  _resolveSandboxPath root (js "./src//app.js")
  = inr (Path.SEP :: join Path.SEP ([js "srv"; js "project"] ++ below))
  /\ isInside root
       (Path.SEP :: join Path.SEP ([js "srv"; js "project"] ++ below))
     = true.
Proof.
  apply (relative_path_without_dotdot_stays_inside
           [js "srv"; js "project"] (js "./src//app.js")).
  - apply (bool_decide_unpack _). by vm_compute.
  - reflexivity.
  - apply (bool_decide_unpack _). by vm_compute.
Defined.

End SandboxPaths.

(** ** Operations in sequence, and blocked paths *)

Module Sequences.
Import JS JSFacts.

(** X19. The line count after [deleteLines]. When [deleteLines] succeeds, a
    following [readFileContent] of the file reports as many lines as
    [new_total_lines], except when every line was deleted: then
    [new_total_lines] is 0 while reading the file, now empty, reports one
    line. *)
Theorem delete_then_read_line_count
    root fs file_path safePath content start_line end_line :
  _resolveSandboxPath root file_path = inr safePath ->
  fs !! safePath = Some content ->
  1 <= start_line -> start_line <= end_line ->
  end_line <= Z.of_nat (length (split LF content)) ->
  exists deleted fs1 read,
    deleteLines root file_path start_line end_line fs = (inr deleted, fs1)
    /\ readFileContent root file_path fs1 = (inr read, fs1)
    /\ rf_lines read = Nat.max 1 (new_total_lines deleted)
    /\ (new_total_lines deleted = 0%nat -> rf_content read = []).
Proof.
  intros Hp Hf H1 H2 H3.
  set (lines := split LF content) in *.
  set (remaining :=
         take (Z.to_nat (start_line - 1)) lines
           ++ drop (Z.to_nat end_line) lines).
  assert (deleteLines root file_path start_line end_line fs
          = (inr {| dl_success := true;
                    dl_file_path := file_path;
                    lines_deleted := end_line - start_line + 1;
                    new_total_lines := length remaining |},
             <[safePath := join LF remaining]> fs)) as Hdel.
  { rewrite (deleteLines_run root fs file_path safePath content) by done.
    cbv zeta. fold lines.
    destruct (Z.ltb_spec start_line 1); [lia|].
    destruct (Z.gtb_spec end_line (Z.of_nat (length lines))); [lia|].
    destruct (Z.gtb_spec start_line end_line); [lia|]. simpl.
    by rewrite splice_delete. }
  eexists _, _, _. split_and!.
  - exact Hdel.
  - unfold readFileContent, bind, lift, readFile. rewrite Hp. simpl.
    by rewrite lookup_insert_eq.
  - simpl. destruct remaining as [|l rest] eqn:E; [done|].
    rewrite split_join; [simpl; lia | done |].
    rewrite <- E. subst remaining lines.
    apply (no_LF_take_drop content _ _ []). constructor.
  - simpl. by destruct remaining.
Qed.

Lemma delete_then_read_line_count_witness :
  exists deleted fs1 read,
    deleteLines demo_root (js "a.txt") 1 2
      (demo_fs (join LF [js "a"; js "b"])) = (inr deleted, fs1)
    /\ readFileContent demo_root (js "a.txt") fs1 = (inr read, fs1)
    /\ rf_lines read = Nat.max 1 (new_total_lines deleted)
    /\ (new_total_lines deleted = 0%nat -> rf_content read = []).
Proof.
  apply (delete_then_read_line_count demo_root
           (demo_fs (join LF [js "a"; js "b"])) (js "a.txt")
           (js "/root/a.txt") (join LF [js "a"; js "b"]) 1 2).
  - reflexivity.
  - reflexivity.
  - lia.
  - lia.
  - simpl. lia.
Defined.

(** X20. A path that the sandbox check blocks is never written, deleted or
    moved: when [_resolveSandboxPath] throws for the path, each of the
    operations that change files throws in turn and leaves every file as
    it was; a move is refused when its source or its destination is
    blocked. *)
Theorem blocked_path_changes_nothing root fs blocked e :
  _resolveSandboxPath root blocked = inl e ->
  (forall content,
      createOrOverwriteFile root blocked content fs = (inl e, fs))
  /\ (forall old_code new_code match_mode,
        smartReplace root blocked old_code new_code match_mode fs
        = (inl (SmartReplaceFailed e), fs))
  /\ (forall content position occurrence create preserve,
        insertLines root blocked content position occurrence create preserve
          fs = (inl e, fs))
  /\ (forall start_line end_line,
        deleteLines root blocked start_line end_line fs
        = (inl (Thrown e), fs))
  /\ (forall content position create,
        appendPrependContent root blocked content position create fs
        = (inl e, fs))
  /\ deleteFile root blocked fs = (inl e, fs)
  /\ (forall other, moveOrRenameFile root blocked other fs = (inl e, fs))
  /\ (forall other, exists e',
        moveOrRenameFile root other blocked fs = (inl e', fs)).
Proof.
  intros Hp. split_and!.
  - intros. unfold createOrOverwriteFile, bind, lift. by rewrite Hp.
  - intros. unfold smartReplace, try_catch, bind, lift. by rewrite Hp.
  - intros. unfold insertLines, bind, lift. by rewrite Hp.
  - intros. unfold deleteLines, tool_bind, run, lift. by rewrite Hp.
  - intros. unfold appendPrependContent, bind, lift. by rewrite Hp.
  - unfold deleteFile, bind, lift. by rewrite Hp.
  - intros. unfold moveOrRenameFile, bind, lift. by rewrite Hp.
  - intros other. unfold moveOrRenameFile, bind, lift. rewrite Hp.
    destruct (_resolveSandboxPath root other) as [e'|safe]; simpl; eauto.
Qed.

Lemma blocked_path_changes_nothing_witness :
  let fs := demo_fs (js "abc") in
  let blocked := js "../etc/passwd" in
  let e := PathTraversalBlocked blocked in
  (forall content,
      createOrOverwriteFile demo_root blocked content fs = (inl e, fs))
  /\ (forall old_code new_code match_mode,
        smartReplace demo_root blocked old_code new_code match_mode fs
        = (inl (SmartReplaceFailed e), fs))
  /\ (forall content position occurrence create preserve,
        insertLines demo_root blocked content position occurrence create
          preserve fs = (inl e, fs))
  /\ (forall start_line end_line,
        deleteLines demo_root blocked start_line end_line fs
        = (inl (Thrown e), fs))
  /\ (forall content position create,
        appendPrependContent demo_root blocked content position create fs
        = (inl e, fs))
  /\ deleteFile demo_root blocked fs = (inl e, fs)
  /\ (forall other,
        moveOrRenameFile demo_root blocked other fs = (inl e, fs))
  /\ (forall other, exists e',
        moveOrRenameFile demo_root other blocked fs = (inl e', fs)).
Proof.
  apply (blocked_path_changes_nothing demo_root (demo_fs (js "abc"))
           (js "../etc/passwd")
           (PathTraversalBlocked (js "../etc/passwd"))).
  reflexivity.
Defined.

End Sequences.
